(** * Page dispatch, navigation and extraction filters of weboob

    Shallow embedding of
    - [weboob/tools/browser/browser.py]: [check_location], [BaseBrowser.location],
      [BaseBrowser.submit], [BaseBrowser._change_location], [BasePage.on_loaded];
    - [weboob/tools/browser2/filters.py]: [CleanText], [CleanDecimal], [Map],
      [Regexp], [Attr], [TableCell], [Time].

    Strings are Latin-1 byte strings ([list ascii]); the Python [re] patterns
    the code compiles are parsed by a small parser of the syntax subset the
    repository's patterns use and run by a backtracking matcher with the
    priorities of Python's [sre]. *)

From Stdlib Require Import List String Ascii Bool Arith ZArith Lia Permutation.
Local Set Warnings "-register-all".

Import ListNotations.
Open Scope list_scope.

(** ** Characters and byte strings *)

Definition text := list ascii.

Definition T (s : string) : text := list_ascii_of_string s.

Definition ascii_eqb (a b : ascii) : bool := Ascii.eqb a b.

Definition code (c : ascii) : nat := nat_of_ascii c.

Definition chr (n : nat) : ascii := ascii_of_nat n.

Definition is_digit (c : ascii) : bool := (48 <=? code c) && (code c <=? 57).

(** [\w] of Python 2 [re] without the UNICODE or LOCALE flag. *)
Definition is_word (c : ascii) : bool :=
  is_digit c || ((65 <=? code c) && (code c <=? 90))
  || ((97 <=? code c) && (code c <=? 122)) || (code c =? 95).

(** [\s] of Python 2 [re] without the UNICODE flag: [ \t\n\r\f\v]. *)
Definition is_re_space (c : ascii) : bool :=
  (code c =? 32) || ((9 <=? code c) && (code c <=? 13)).

Fixpoint text_eqb (a b : text) : bool :=
  match a, b with
  | [], [] => true
  | x :: a', y :: b' => ascii_eqb x y && text_eqb a' b'
  | _, _ => false
  end.



(** ** Python regular expressions *)

Module Re.

(** Items of a character class [[...]]. *)
Inductive citem :=
| CSingle (c : ascii)
| CRange (lo hi : ascii)
| CDigit | CNotDigit | CWord | CNotWord | CSpace | CNotSpace.

Inductive regex :=
| REmpty
| RChar (c : ascii)
| RAny                                   (* [.]: any byte but a newline *)
| RClass (neg : bool) (items : list citem)
| RBol                                   (* [^] *)
| REol                                   (* [$] *)
| RSeq (a b : regex)
| RAlt (a b : regex)
| RStar (a : regex) (greedy : bool)
| RGroup (n : nat) (a : regex).          (* capturing group number [n] *)

Definition citem_matches (it : citem) (c : ascii) : bool :=
  match it with
  | CSingle d => ascii_eqb c d
  | CRange lo hi => (code lo <=? code c) && (code c <=? code hi)
  | CDigit => is_digit c
  | CNotDigit => negb (is_digit c)
  | CWord => is_word c
  | CNotWord => negb (is_word c)
  | CSpace => is_re_space c
  | CNotSpace => negb (is_re_space c)
  end.

Definition class_matches (neg : bool) (items : list citem) (c : ascii) : bool :=
  xorb neg (existsb (fun it => citem_matches it c) items).

Fixpoint size (r : regex) : nat :=
  match r with
  | RSeq a b | RAlt a b => S (size a + size b)
  | RStar a _ | RGroup _ a => S (size a)
  | _ => 1
  end.

(** *** Parser

    [alt := seq ('|' alt)?], [seq := piece*], [piece := atom quantifier?],
    with the quantifiers [*], [+], [?] and their lazy forms. Syntax outside
    this subset ([{m,n}], backreferences, lookarounds, [\b], ...) and the
    errors Python reports ([re.error]: unbalanced parenthesis, nothing to
    repeat, multiple repeat, unterminated class) make the parser fail. *)

Definition is_special (c : ascii) : bool :=
  existsb (ascii_eqb c) (T "()|*+?{").

Definition is_quant (c : ascii) : bool := existsb (ascii_eqb c) (T "*+?").

(** The item denoted by the escape [\c], if the subset supports it. *)
Definition escape_item (c : ascii) : option citem :=
  if ascii_eqb c "d" then Some CDigit
  else if ascii_eqb c "D" then Some CNotDigit
  else if ascii_eqb c "w" then Some CWord
  else if ascii_eqb c "W" then Some CNotWord
  else if ascii_eqb c "s" then Some CSpace
  else if ascii_eqb c "S" then Some CNotSpace
  else if ascii_eqb c "n" then Some (CSingle (chr 10))
  else if ascii_eqb c "t" then Some (CSingle (chr 9))
  else if ascii_eqb c "r" then Some (CSingle (chr 13))
  else if is_word c then None
  else Some (CSingle c).

Definition item_regex (it : citem) : regex :=
  match it with
  | CSingle c => RChar c
  | _ => RClass false [it]
  end.

(** Items of a class body, up to the closing bracket; [first] says whether
    a [']'] here is still a literal. [fuel] bounds the recursion by the
    length of the pattern. *)
Fixpoint parse_class (fuel : nat) (s : text) (first : bool) : option (list citem * text) :=
  match fuel with
  | O => None
  | S f =>
  match s with
  | [] => None
  | c :: rest =>
      if ascii_eqb c "]" && negb first then Some ([], rest)
      else
        let single :=
          if ascii_eqb c "\" then
            match rest with
            | e :: rest' =>
                match escape_item e with Some it => Some (it, rest') | None => None end
            | [] => None
            end
          else Some (CSingle c, rest) in
        match single with
        | None => None
        | Some (CSingle lo, ("-"%char) :: hi :: rest') =>
            if ascii_eqb hi "]" then
              match parse_class f (("-"%char) :: hi :: rest') false with
              | Some (its, r) => Some (CSingle lo :: its, r)
              | None => None
              end
            else
              match parse_class f rest' false with
              | Some (its, r) => Some (CRange lo hi :: its, r)
              | None => None
              end
        | Some (it, rest') =>
            match parse_class f rest' false with
            | Some (its, r) => Some (it :: its, r)
            | None => None
            end
        end
  end
  end.

(** The name of a group [(?P<name>...)], up to its closing [>]. *)
Fixpoint skip_name (s : text) : option text :=
  match s with
  | [] => None
  | c :: rest => if ascii_eqb c ">" then Some rest
                 else if is_word c then skip_name rest else None
  end.

(** [sre_parse] refuses to repeat an anchor: a quantifier right after [^]
    or [$] raises [re.error] (nothing to repeat). *)
Definition starts_with_anchor (s : text) : bool :=
  match s with c :: _ => ascii_eqb c "^" || ascii_eqb c "$" | [] => false end.

(** The state of the parser: the rest of the pattern and the number of the
    next capturing group. *)
Fixpoint parse_alt (fuel : nat) (s : text) (g : nat) : option (regex * text * nat) :=
  match fuel with
  | O => None
  | S f =>
      match parse_seq f s g with
      | Some (r, ("|"%char) :: rest, g') =>
          match parse_alt f rest g' with
          | Some (r2, rest2, g2) => Some (RAlt r r2, rest2, g2)
          | None => None
          end
      | res => res
      end
  end
with parse_seq (fuel : nat) (s : text) (g : nat) : option (regex * text * nat) :=
  match fuel with
  | O => None
  | S f =>
      match s with
      | [] => Some (REmpty, [], g)
      | c :: _ =>
          if ascii_eqb c ")" || ascii_eqb c "|" then Some (REmpty, s, g)
          else
            match parse_piece f s g with
            | Some (r, rest, g') =>
                match parse_seq f rest g' with
                | Some (r2, rest2, g2) => Some (RSeq r r2, rest2, g2)
                | None => None
                end
            | None => None
            end
      end
  end
with parse_piece (fuel : nat) (s : text) (g : nat) : option (regex * text * nat) :=
  match fuel with
  | O => None
  | S f =>
      match parse_atom f s g with
      | Some (a, q :: rest, g') =>
          if is_quant q then
            if starts_with_anchor s then None (* nothing to repeat *) else
            let '(greedy, rest') :=
              match rest with
              | ("?"%char) :: r => (false, r)
              | _ => (true, rest)
              end in
            match rest' with
            | c :: _ => if is_quant c then None (* multiple repeat *) else
                if ascii_eqb q "*" then Some (RStar a greedy, rest', g')
                else if ascii_eqb q "+" then Some (RSeq a (RStar a greedy), rest', g')
                else Some ((if greedy then RAlt a REmpty else RAlt REmpty a), rest', g')
            | [] =>
                if ascii_eqb q "*" then Some (RStar a greedy, rest', g')
                else if ascii_eqb q "+" then Some (RSeq a (RStar a greedy), rest', g')
                else Some ((if greedy then RAlt a REmpty else RAlt REmpty a), rest', g')
            end
          else Some (a, q :: rest, g')
      | res => res
      end
  end
with parse_atom (fuel : nat) (s : text) (g : nat) : option (regex * text * nat) :=
  match fuel with
  | O => None
  | S f =>
      match s with
      | [] => None
      | ("("%char) :: ("?"%char) :: (":"%char) :: rest =>
          match parse_alt f rest g with
          | Some (r, (")"%char) :: rest', g') => Some (r, rest', g')
          | _ => None
          end
      | ("("%char) :: ("?"%char) :: ("P"%char) :: ("<"%char) :: rest =>
          (* a named group is a capturing group with the next number *)
          match skip_name rest with
          | Some rest0 =>
              match parse_alt f rest0 (S g) with
              | Some (r, (")"%char) :: rest', g') => Some (RGroup g r, rest', g')
              | _ => None
              end
          | None => None
          end
      | ("("%char) :: ("?"%char) :: _ => None
      | ("("%char) :: rest =>
          match parse_alt f rest (S g) with
          | Some (r, (")"%char) :: rest', g') => Some (RGroup g r, rest', g')
          | _ => None
          end
      | ("["%char) :: ("^"%char) :: rest =>
          match parse_class (S (List.length rest)) rest true with
          | Some (its, rest') => Some (RClass true its, rest', g)
          | None => None
          end
      | ("["%char) :: rest =>
          match parse_class (S (List.length rest)) rest true with
          | Some (its, rest') => Some (RClass false its, rest', g)
          | None => None
          end
      | ("."%char) :: rest => Some (RAny, rest, g)
      | ("^"%char) :: rest => Some (RBol, rest, g)
      | ("$"%char) :: rest => Some (REol, rest, g)
      | ("\"%char) :: e :: rest =>
          match escape_item e with
          | Some it => Some (item_regex it, rest, g)
          | None => None
          end
      | c :: rest => if is_special c then None else Some (RChar c, rest, g)
      end
  end.

(** [re.compile]: the regex and its number of groups. *)
Definition compile (p : text) : option (regex * nat) :=
  match parse_alt (5 * (List.length p + 2)) p 1 with
  | Some (r, [], g) => Some (r, pred g)
  | _ => None
  end.

(** *** Matcher

    Continuation-passing backtracking over the subject [s] with the
    priorities of [sre]: alternatives left to right, greedy repetitions
    longest first, an iteration that matches the empty string stops the
    repetition. Captures are kept per group number. *)

Definition caps := list (option (nat * nat)).

Fixpoint set_cap (cs : caps) (n : nat) (v : nat * nat) : caps :=
  match cs, n with
  | [], _ => []
  | _ :: cs', 1 => Some v :: cs'
  | c :: cs', S n' => c :: set_cap cs' n' v
  | cs, O => cs
  end.

Section Matcher.
Variable s : text.

Fixpoint m {A} (fuel : nat) (r : regex) (i : nat) (cs : caps)
    (k : nat -> caps -> option A) : option A :=
  match fuel with
  | O => None
  | S f =>
      match r with
      | REmpty => k i cs
      | RChar c =>
          match nth_error s i with
          | Some d => if ascii_eqb c d then k (S i) cs else None
          | None => None
          end
      | RAny =>
          match nth_error s i with
          | Some d => if code d =? 10 then None else k (S i) cs
          | None => None
          end
      | RClass neg its =>
          match nth_error s i with
          | Some d => if class_matches neg its d then k (S i) cs else None
          | None => None
          end
      | RBol => if i =? 0 then k i cs else None
      | REol =>
          if (i =? List.length s)
             || ((S i =? List.length s) && match nth_error s i with
                                       | Some d => code d =? 10
                                       | None => false end)
          then k i cs else None
      | RSeq a b => m f a i cs (fun j cs' => m f b j cs' k)
      | RAlt a b =>
          match m f a i cs k with
          | Some x => Some x
          | None => m f b i cs k
          end
      | RStar a greedy =>
          let more := m f a i cs (fun j cs' =>
                         if j =? i then None else m f (RStar a greedy) j cs' k) in
          if greedy then
            match more with Some x => Some x | None => k i cs end
          else
            match k i cs with Some x => Some x | None => more end
      | RGroup n a => m f a i cs (fun j cs' => k j (set_cap cs' n (i, j)))
      end
  end.

Definition fuel_for (r : regex) : nat := S (size r) * (List.length s + 2).

(** A match starting at [i]: its end and its captures. *)
Definition match_at (r : regex) (ngroups : nat) (i : nat) : option (nat * caps) :=
  m (fuel_for r) r i (repeat None ngroups) (fun j cs => Some (j, cs)).

Definition substr (i j : nat) : text := firstn (j - i) (skipn i s).

(** [m.groups()]: each group's text, [None] for a group that did not take part. *)
Definition groups (cs : caps) : list (option text) :=
  map (fun c => match c with Some (i, j) => Some (substr i j) | None => None end) cs.

End Matcher.

(** The [re.match] of a compiled pattern: [None] when there is no match,
    otherwise [m.groups()]. *)
Definition rmatch (p : regex * nat) (s : text) : option (list (option text)) :=
  match match_at s (fst p) (snd p) 0 with
  | Some (_, cs) => Some (groups s cs)
  | None => None
  end.

(** [re.search]: the first position from which the pattern matches, with
    the match's end and captures. *)
Fixpoint search_from (r : regex) (ng : nat) (s : text) (i : nat) (fuel : nat)
    : option (nat * nat * caps) :=
  match fuel with
  | O => None
  | S f =>
      match match_at s r ng i with
      | Some (j, cs) => Some (i, j, cs)
      | None => search_from r ng s (S i) f
      end
  end.

Definition search (p : regex * nat) (s : text) : option (nat * nat * caps) :=
  search_from (fst p) (snd p) s 0 (S (List.length s)).

End Re.

(** ** Exceptions

    The Python exceptions the modelled code raises or catches. *)

Inductive exn :=
| ReError                          (* re.error raised by re.compile *)
| HTTPError (status : Z)           (* urllib2.HTTPError *)
| URLError                         (* urllib2.URLError *)
| BadStatusLine                    (* httplib.BadStatusLine *)
| BrowserStateError                (* mechanize.BrowserStateError *)
| BrowserRetry
| BrowserUnavailable
| BrowserHTTPNotFound              (* subclass of BrowserUnavailable *)
| BrowserHTTPError                 (* subclass of BrowserUnavailable *)
| BrowserIncorrectPassword
| KeyError
| IndexError
| ValueError
| TypeError
| AttributeError
| InvalidOperation                 (* decimal.InvalidOperation *)
| StopIteration
| RuntimeError                     (* maximum recursion depth exceeded *)
| SiteError (n : nat).             (* an exception of a site module's page code *)

(** ** CPython 2.7 dictionaries

    [PAGES] is a dict literal, a class attribute; [_change_location] walks
    [self.PAGES.items()], whose order is the order of the slots of the
    dict's hash table. This is the table of [Objects/dictobject.c] for
    string keys (no hash randomisation, 64-bit [long]), built as the
    [BUILD_MAP]/[STORE_MAP] bytecode of a dict display builds it. *)

Module PyDict.

Local Open Scope Z_scope.

Definition W64 : Z := 2 ^ 64.

(** [string_hash] of [Objects/stringobject.c], as an unsigned 64-bit value. *)
Definition string_hash (s : text) : Z :=
  match s with
  | [] => 0
  | c0 :: _ =>
      let x := fold_left (fun x c => Z.lxor ((1000003 * x) mod W64) (Z.of_nat (code c)))
                         s (Z.shiftl (Z.of_nat (code c0)) 7) in
      let x := Z.lxor x (Z.of_nat (List.length s)) in
      if x =? W64 - 1 then W64 - 2 else x
  end.

Section Table.
Variable V : Type.

Definition slot := option (text * V).
Definition table := list slot.

Definition mask (t : table) : Z := Z.of_nat (List.length t) - 1.

Definition slot_at (t : table) (j : Z) : slot :=
  match nth_error t (Z.to_nat j) with Some e => e | None => None end.

Definition set_slot (t : table) (j : Z) (e : slot) : table :=
  firstn (Z.to_nat j) t ++ e :: skipn (S (Z.to_nat j)) t.

(** A slot is free for [key] when it is empty or already holds [key]. *)
Definition free_for (key : text) (e : slot) : bool :=
  match e with None => true | Some (k, _) => text_eqb k key end.

(** The probe sequence of [lookdict_string] ([i = (i << 2) + i + perturb + 1],
    [perturb >>= PERTURB_SHIFT]), on [size_t] values. *)
Fixpoint probe (fuel : nat) (t : table) (key : text) (i perturb : Z) : option Z :=
  match fuel with
  | O => None
  | S f =>
      let i' := (Z.shiftl i 2 + i + perturb + 1) mod W64 in
      let j := Z.land i' (mask t) in
      if free_for key (slot_at t j) then Some j
      else probe f t key i' (Z.shiftr perturb 5)
  end.

Definition lookdict (t : table) (key : text) : option Z :=
  let h := string_hash key in
  let i := Z.land h (mask t) in
  if free_for key (slot_at t i) then Some i
  else probe (64 + List.length t)%nat t key i h.

Definition used (t : table) : nat :=
  List.length (filter (fun e => match e with Some _ => true | None => false end) t).

(** [insertdict]: a new key takes the free slot, a present key keeps its
    slot and gets the new value. *)
Definition insertdict (t : table) (key : text) (v : V) : table :=
  match lookdict t key with
  | Some j => set_slot t j (Some (key, v))
  | None => t
  end.

(** [dictresize]: the smallest power of two, at least [PyDict_MINSIZE] = 8,
    above [minused]; the old entries are reinserted in slot order. *)
Fixpoint newsize_from (fuel : nat) (n minused : nat) : nat :=
  match fuel with
  | O => n
  | S f => if Nat.leb n minused then newsize_from f (2 * n)%nat minused else n
  end.

Definition dictresize (t : table) (minused : nat) : table :=
  let n := newsize_from (S minused) 8 minused in
  fold_left (fun acc e => match e with Some (k, v) => insertdict acc k v | None => acc end)
            t (repeat None n).

(** [PyDict_SetItem]: insert, then grow when the table is two thirds full. *)
Definition setitem (t : table) (key : text) (v : V) : table :=
  let n_used := used t in
  let t' := insertdict t key v in
  if Nat.ltb n_used (used t') && Nat.leb (2 * List.length t') (3 * used t')
  then dictresize t' ((if Z.of_nat (used t') >? 50000 then 2 else 4) * used t')%nat
  else t'.

(** [BUILD_MAP n] ([_PyDict_NewPresized]) then one [STORE_MAP] per entry,
    left to right. *)
Definition dict_display (entries : list (text * V)) : table :=
  let n := List.length entries in
  let t0 := repeat None 8 in
  let t0 := if Nat.ltb 5 n then dictresize t0 n else t0 in
  fold_left (fun t kv => setitem t (fst kv) (snd kv)) entries t0.

(** [dict.items()]: the entries in slot order. *)
Definition items (t : table) : list (text * V) :=
  flat_map (fun e => match e with Some kv => [kv] | None => [] end) t.

End Table.

Arguments dict_display {V}.
Arguments items {V}.

End PyDict.

(** ** URL dispatch of [_change_location]

    [for key, value in self.PAGES.items(): regexp = re.compile('^%s$' % key);
    m = regexp.match(result.geturl()); if m: ... break]. *)

Definition page_cls := string.

Definition groups := list (option text).

(** One binding: [re.compile] raises [re.error] on a bad pattern; otherwise
    the groups of [re.match], if it matches. *)
Definition try_binding (key url : text) : exn + option groups :=
  match Re.compile (T "^" ++ key ++ T "$") with
  | None => inl ReError
  | Some p => inr (Re.rmatch p url)
  end.

Fixpoint dispatch (items : list (text * page_cls)) (url : text)
    : exn + option (page_cls * groups) :=
  match items with
  | [] => inr None
  | (key, value) :: rest =>
      match try_binding key url with
      | inl e => inl e
      | inr (Some g) => inr (Some (value, g))
      | inr None => dispatch rest url
      end
  end.

(** The class of a dispatch result, if a binding matched. *)
Definition fst_match_cls (r : exn + option (page_cls * groups)) : option page_cls :=
  match r with inr (Some (c, _)) => Some c | _ => None end.

(** The table [PAGES] declared as the dict literal [decl], iterated by
    [items()]. *)
Definition PAGES_items (decl : list (text * page_cls)) : list (text * page_cls) :=
  PyDict.items (PyDict.dict_display decl).

(** The [PAGES] of [modules/creditdunord/browser.py], in declaration order. *)
Definition creditdunord_PAGES : list (text * page_cls) :=
  [ (T "https://[^/]+/?", "LoginPage"%string);
    (T "https://[^/]+/.*\?.*_pageLabel=page_erreur_connexion", "LoginPage"%string);
    (T "https://[^/]+/vos-comptes/particuliers(\?.*)?", "AccountsPage"%string);
    (T "https://[^/]+/vos-comptes/.*/transac/.*", "TransactionsPage"%string) ].

(** A URL of the accounts page of Crédit du Nord that the second binding
    (the login error page) and the third one (the accounts page) both match. *)
Definition cdn_error_url : text :=
  T "https://www.credit-du-nord.fr/vos-comptes/particuliers?_pageLabel=page_erreur_connexion".

Definition cdn_accounts_url : text :=
  T "https://www.credit-du-nord.fr/vos-comptes/particuliers".

(** ** Values and the filters of [browser2/filters.py] *)

(** The selected values a filter receives or returns. An lxml element is
    its [itertext()] pieces and its attributes (no child elements). *)
Record node := mk_node { itertext : list text; attrib : list (text * text) }.

(** [decimal.Decimal]: [DFinite neg coef exp] is [(-1)^neg * coef * 10^exp],
    the coefficient digits and exponent Python keeps (no rounding). *)
Inductive decimal :=
| DFinite (neg : bool) (coef : Z) (exp : Z)
| DInfinity (neg : bool)
| DNaN (neg : bool) (signaling : bool).

Inductive value :=
| VNone
| VStr (t : text)
| VInt (z : Z)
| VDecimal (d : decimal)
| VNode (n : node)
| VList (l : list value)              (* a list or tuple, e.g. an xpath result *)
| VTime (hour minute second : Z).     (* datetime.time *)

Notation "'let?' x := e 'in' k" :=
  (match e with inl err => inl err | inr x => k end)
  (at level 200, x name, e at level 100, k at level 200).

Fixpoint assoc {V} (k : text) (l : list (text * V)) : option V :=
  match l with
  | [] => None
  | (k', v) :: l' => if text_eqb k' k then Some v else assoc k l'
  end.

Fixpoint join (sep : text) (l : list text) : text :=
  match l with
  | [] => []
  | [x] => x
  | x :: l' => x ++ sep ++ join sep l'
  end.

(** [unicode.isspace] on Latin-1 code points, the characters [strip()] removes. *)
Definition is_py_space (c : ascii) : bool :=
  ((9 <=? code c) && (code c <=? 13)) || ((28 <=? code c) && (code c <=? 32))
  || (code c =? 133) || (code c =? 160).

Fixpoint dropwhile (p : ascii -> bool) (s : text) : text :=
  match s with
  | [] => []
  | c :: s' => if p c then dropwhile p s' else s
  end.

Definition lstrip (s : text) : text := dropwhile is_py_space s.
Definition rstrip (s : text) : text := rev (dropwhile is_py_space (rev s)).
Definition strip (s : text) : text := rstrip (lstrip s).

(** The class [[\s\xa0\t]] of [CleanText.clean]. *)
Definition is_clean_space (c : ascii) : bool :=
  is_re_space c || (code c =? 160) || (code c =? 9).

(** [re.sub(u'[\s\xa0\t]+', u' ', txt)]: every maximal run of characters of
    the class becomes one space; [in_run] says the previous character of
    the input was in the class. *)
Fixpoint collapse_aux (in_run : bool) (s : text) : text :=
  match s with
  | [] => []
  | c :: s' =>
      if is_clean_space c then
        if in_run then collapse_aux true s' else " "%char :: collapse_aux true s'
      else c :: collapse_aux false s'
  end.

Definition collapse (s : text) : text := collapse_aux false s.

(** [CleanText.clean] on a string. *)
Definition clean_text (txt : text) : text := strip (collapse txt).

(** [CleanText.clean]: an element is first turned into the join of its
    stripped [itertext()] pieces; anything else that is not a string has no
    [itertext]. *)
Definition CleanText_clean (v : value) : exn + text :=
  match v with
  | VStr t => inr (clean_text t)
  | VNode n => inr (clean_text (join (T " ") (map strip (itertext n))))
  | _ => inl AttributeError
  end.

(** [CleanText.remove]: [txt.replace(symbol, '')] for each symbol. *)
Definition CleanText_remove (txt symbols : text) : text :=
  fold_left (fun t sym => filter (fun c => negb (ascii_eqb c sym)) t) symbols txt.

Fixpoint map_e {A B} (f : A -> exn + B) (l : list A) : exn + list B :=
  match l with
  | [] => inr []
  | x :: l' => let? y := f x in let? ys := map_e f l' in inr (y :: ys)
  end.

(** [CleanText.filter]: a list is cleaned item by item and joined by spaces. *)
Definition CleanText_filter (symbols : text) (txt : value) : exn + text :=
  let? txt := match txt with
              | VList l => let? ts := map_e CleanText_clean l in inr (VStr (join (T " ") ts))
              | _ => inr txt
              end in
  let? t := CleanText_clean txt in
  inr (CleanText_remove t symbols).

(** [str.replace] of one character. *)
Definition py_replace (t : text) (old : ascii) (new : text) : text :=
  flat_map (fun c => if ascii_eqb c old then new else [c]) t.

(** The class [[\d\-\.]]. *)
Definition numeric_char (c : ascii) : bool := is_digit c || ascii_eqb c "-" || ascii_eqb c ".".

(** [re.sub(ur'[^\d\-\.]', '', text)]. *)
Definition keep_decimal_chars (t : text) : text := filter numeric_char t.

Fixpoint span_digits (s : text) : text * text :=
  match s with
  | c :: s' => if is_digit c then let '(ds, r) := span_digits s' in (c :: ds, r) else ([], s)
  | [] => ([], [])
  end.

Definition digits_value (ds : text) : Z :=
  fold_left (fun acc c => (acc * 10 + (Z.of_nat (code c) - 48))%Z) ds 0%Z.

Definition lower (c : ascii) : ascii :=
  if (65 <=? code c) && (code c <=? 90) then chr (code c + 32) else c.

Fixpoint strip_prefix (pre s : text) : option text :=
  match pre, s with
  | [], _ => Some s
  | p :: pre', c :: s' => if ascii_eqb p c then strip_prefix pre' s' else None
  | _ :: _, [] => None
  end.

(** The exponent [E[-+]?\d+] at the end of a numeric literal. *)
Definition parse_exponent (s : text) : option Z :=
  let '(neg, s1) :=
    match s with
    | c :: r => if ascii_eqb c "-" then (true, r) else if ascii_eqb c "+" then (false, r) else (false, s)
    | [] => (false, s)
    end in
  match span_digits s1 with
  | ([], _) => None
  | (ds, []) => Some (if neg then - digits_value ds else digits_value ds)%Z
  | _ => None
  end.

(** [Decimal(s)] for a string: the grammar of [decimal._parser] on
    [s.strip()] (the diagnostic digits of a NaN are not kept); [None] is
    the [InvalidOperation] of an invalid literal. *)
Definition parse_decimal (s0 : text) : option decimal :=
  let s := strip s0 in
  let '(neg, s1) :=
    match s with
    | c :: r => if ascii_eqb c "-" then (true, r) else if ascii_eqb c "+" then (false, r) else (false, s)
    | [] => (false, s)
    end in
  let low := map lower s1 in
  if text_eqb low (T "inf") || text_eqb low (T "infinity") then Some (DInfinity neg)
  else
  match strip_prefix (T "nan") low, strip_prefix (T "snan") low with
  | Some diag, _ => if forallb is_digit diag then Some (DNaN neg false) else None
  | None, Some diag => if forallb is_digit diag then Some (DNaN neg true) else None
  | None, None =>
      let '(ip, r1) := span_digits s1 in
      let '(fp, r2) :=
        match r1 with
        | c :: r => if ascii_eqb c "." then span_digits r else ([], r1)
        | [] => ([], [])
        end in
      match ip ++ fp with
      | [] => None
      | _ =>
          let e0 := (- Z.of_nat (List.length fp))%Z in
          match r2 with
          | [] => Some (DFinite neg (digits_value (ip ++ fp)) e0)
          | c :: r3 =>
              if ascii_eqb (lower c) "e" then
                match parse_exponent r3 with
                | Some e => Some (DFinite neg (digits_value (ip ++ fp)) (e + e0))
                | None => None
                end
              else None
          end
      end
  end.

(** The [Decimal] constructor. The list or tuple form [(sign, digits, exp)]
    is not modelled: a list is taken as a malformed one ([ValueError]). *)
Definition Decimal (v : value) : exn + decimal :=
  match v with
  | VStr t => match parse_decimal t with Some d => inr d | None => inl InvalidOperation end
  | VInt z => inr (DFinite (z <? 0)%Z (Z.abs z) 0)
  | VDecimal d => inr d
  | VList _ => inl ValueError
  | _ => inl TypeError
  end.

(** [_NO_DEFAULT] is [None]; a configured default [d] is [Some d]. *)
Definition default_or (default : option value) (e : exn) : exn + value :=
  match default with Some d => inr d | None => inl e end.

(** [CleanDecimal.filter]. *)
Definition CleanDecimal_filter (replace_dots : bool) (default : option value) (v : value)
    : exn + value :=
  let? text := CleanText_filter [] v in
  let text := if replace_dots then py_replace (py_replace text "." []) "," (T ".") else text in
  match Decimal (VStr (keep_decimal_chars text)) with
  | inr d => inr (VDecimal d)
  | inl InvalidOperation =>
      match default with
      | Some d => let? x := Decimal d in inr (VDecimal x)
      | None => inl InvalidOperation
      end
  | inl e => inl e
  end.

(** [Map.filter] with the string keys of [map_dict]: a list is unhashable,
    no other non-string value equals a string key. *)
Definition Map_filter (map_dict : list (text * value)) (default : option value) (txt : value)
    : exn + value :=
  match txt with
  | VList _ => inl TypeError
  | VStr t => match assoc t map_dict with Some v => inr v | None => default_or default KeyError end
  | _ => default_or default KeyError
  end.

(** [mobj.expand(template)] for the escapes [\1]..[\9], [\n], [\t]; other
    characters are copied. *)
Fixpoint expand (gs : list (option text)) (tpl : text) : exn + text :=
  match tpl with
  | [] => inr []
  | c :: rest =>
      if ascii_eqb c "\" then
        match rest with
        | d :: rest' =>
            if is_digit d && negb (ascii_eqb d "0") then
              match nth_error gs (code d - 49) with
              | Some (Some g) => let? t := expand gs rest' in inr (g ++ t)
              | _ => inl ReError        (* invalid or unmatched group *)
              end
            else
              let d' := if ascii_eqb d "n" then chr 10 else if ascii_eqb d "t" then chr 9 else d in
              let? t := expand gs rest' in
              inr (if ascii_eqb d "n" || ascii_eqb d "t" then d' :: t else c :: d :: t)
        | [] => inl ReError
        end
      else let? t := expand gs rest in inr (c :: t)
  end.

Fixpoint first_some {A} (l : list (option A)) : option A :=
  match l with
  | [] => None
  | Some x :: _ => Some x
  | None :: l' => first_some l'
  end.

(** [Regexp.filter] with the compiled pattern [p]. On a list the code calls
    [txt.itertext()], which a list does not have. *)
Definition Regexp_filter (p : Re.regex * nat) (template : option text) (default : option value)
    (txt : value) : exn + value :=
  let? t := match txt with
            | VList _ => inl AttributeError
            | VStr t => inr t
            | _ => inl TypeError
            end in
  match Re.search p t with
  | None => default_or default KeyError
  | Some (_, _, cs) =>
      let gs := Re.groups t cs in
      match template with
      | None => match first_some gs with Some g => inr (VStr g) | None => inl StopIteration end
      | Some tpl => let? r := expand gs tpl in inr (VStr r)
      end
  end.

(** [Attr.filter]: [el[0].attrib[self.attr]]. An IndexError of [el[0]] gives
    the default or [ValueError], a missing attribute the default or
    [KeyError]. *)
Definition Attr_filter (attr : text) (default : option value) (el : value) : exn + value :=
  match el with
  | VList [] | VStr [] | VNode _ => default_or default ValueError
  | VList (VNode n :: _) =>
      match assoc attr (attrib n) with
      | Some a => inr (VStr a)
      | None => default_or default KeyError
      end
  | VList (_ :: _) | VStr (_ :: _) => inl AttributeError
  | _ => inl TypeError
  end.

(** A row of a [TableElement]: the columns registered from the table head
    and the row's [td] cells. *)
Record row := mk_row { row_cols : list (text * nat); row_cells : list value }.

(** Modelled from the spec: [TableElement.get_colnum] (browser2/page.py, not
    in the sources) returns the column index registered for a header name,
    or [None]. *)
Definition get_colnum (r : row) (name : text) : option nat := assoc name (row_cols r).

(** [TableCell.__call__]: the first candidate name with a column gives the
    node list [./td[idx + 1]]. *)
Definition TableCell_call (names : list text) (default : option value) (item : row)
    : exn + value :=
  let fix go (ns : list text) :=
    match ns with
    | [] => default_or default KeyError
    | n :: ns' =>
        match get_colnum item n with
        | Some idx => inr (VList (match nth_error (row_cells item) idx with
                                  | Some c => [c] | None => [] end))
        | None => go ns'
        end
    end in
  go names.

(** The class attribute [Time.regexp]; its groups [hh], [mm], [ss] are the
    groups 1, 2 and 4. *)
Definition time_pattern : text := T "(?P<hh>\d+):?(?P<mm>\d+)(:(?P<ss>\d+))?".

(** [datetime.time(hour, minute, second)]. *)
Definition make_time (h m s : Z) : exn + value :=
  if ((0 <=? h) && (h <=? 23) && (0 <=? m) && (m <=? 59) && (0 <=? s) && (s <=? 59))%Z
  then inr (VTime h m s) else inl ValueError.

(** [Time.filter]: [int(m.groupdict()[index] or 0)] for each field. *)
Definition Time_filter (default : option value) (txt : value) : exn + value :=
  let? t := match txt with VStr t => inr t | _ => inl TypeError end in
  match Re.compile time_pattern with
  | None => inl ReError
  | Some p =>
      match Re.search p t with
      | Some (_, _, cs) =>
          let gs := Re.groups t cs in
          let field n := match nth_error gs n with
                         | Some (Some g) => match g with [] => 0%Z | _ => digits_value g end
                         | _ => 0%Z end in
          make_time (field 0) (field 1) (field 3)
      | None => default_or default ValueError
      end
  end.

(** Python's [LookupError] family. *)
Definition is_lookup_error (e : exn) : bool :=
  match e with KeyError | IndexError => true | _ => false end.

(** ** The navigation engine of [tools/browser/browser.py] *)

(** [re.sub(pattern, template, s)] of Python 2.7 ([pattern_subx]): [i] is
    the end of the text copied so far, [start] where the next search
    begins, [n0] whether a replacement was made yet. An empty match right
    after the previous one is not replaced; after an empty match the search
    moves on by one character. *)
Fixpoint sub_loop (r : Re.regex) (ng : nat) (tpl s : text) (i start : nat) (n0 : bool)
    (fuel : nat) : exn + text :=
  match fuel with
  | O => inr (skipn i s)
  | S f =>
      if List.length s <? start then inr (skipn i s) else
      match Re.search_from r ng s start (S (List.length s - start)) with
      | None => inr (skipn i s)
      | Some (b, e, cs) =>
          let? rep := expand (Re.groups s cs) tpl in
          let skip := (i =? b) && (i =? e) && n0 in
          let piece := firstn (b - i) (skipn i s) ++ (if skip then [] else rep) in
          let? rest := sub_loop r ng tpl s e (if e =? b then S e else e) (n0 || negb skip) f in
          inr (piece ++ rest)
      end
  end.

Definition re_sub (pattern tpl s : text) : exn + text :=
  match Re.compile pattern with
  | None => inl ReError
  | Some (r, ng) => sub_loop r ng tpl s 0 0 false (S (S (List.length s)))
  end.

Definition starts_with_slash (u : text) : bool :=
  match u with c :: _ => ascii_eqb c "/" | [] => false end.

(** A page object: its class, the URL it was built from and the groups of
    the binding. [page_id] numbers the objects in construction order; it
    stands for Python's object identity. *)
Record page := mk_page {
  page_id : nat; page_class : page_cls; page_url : text; page_groups : groups }.

(** What the transport returns for a visited URL: the final URL after
    redirects, the host of the request and the cookie jar after it. *)
Record response := mk_response { geturl : text; resp_host : text; resp_cookies : nat }.

(** A transport outcome: a response, or the exception [mechanize.Browser.open]
    raises ([HTTPError], [URLError], [BadStatusLine], [BrowserStateError]). *)
Inductive net_result := NResp (r : response) | NFail (e : exn).

(** The code of a page hook or of a login procedure: a sequence of calls on
    the browser, or a raise. *)
Inductive action :=
| ALocation (url : text) (no_login : bool)
| ASubmit (url : text) (nologin : bool)
| AOpenurl (url : text)
| AHome
| ARaise (e : exn).

Definition prog := list action.

(** A [BaseBrowser] subclass: its class attributes, its password, its
    [is_logged] and [login] methods, the [on_loaded] of its page classes and
    the site behind the transport ([net cookies url]). [PAGES] is the list
    [PAGES.items()]. *)
Record browser_cls := mk_browser {
  DOMAIN : option text;
  PROTOCOL : text;
  PAGES : list (text * page_cls);
  SAVE_RESPONSES : bool;
  password : option text;
  is_logged : option page -> nat -> bool;
  login_prog : prog;
  on_loaded : page_cls -> prog;
  net : nat -> text -> net_result }.

(** What the browser logs and does that a caller can observe. [EvLogin] and
    [EvRetryNav] are ghost events marking the call of [login()] and the
    recursive [self.location] of the [BrowserRetry] handler. *)
Inductive event :=
| EvWentOn (url : text)                 (* logger.debug('... Went on %s') *)
| EvWarning (url : text)                (* logger.warning: no page for the URL *)
| EvSaved (url : text)                  (* save_response *)
| EvPage (id : nat)                     (* a page object is built *)
| EvOnLoaded (id : nat)                 (* page.on_loaded() is called *)
| EvRelogin                             (* logger.debug('!! Relogin !!') *)
| EvLogin
| EvRetryNav.

Definition event_eqb (a b : event) : bool :=
  match a, b with
  | EvWentOn u, EvWentOn v | EvWarning u, EvWarning v | EvSaved u, EvSaved v => text_eqb u v
  | EvPage i, EvPage j | EvOnLoaded i, EvOnLoaded j => i =? j
  | EvRelogin, EvRelogin | EvLogin, EvLogin | EvRetryNav, EvRetryNav => true
  | _, _ => false
  end.

(** The browser's state: [self.page], the host of [self.request], the
    cookie jar, the next page identity, the events so far. [login_depth]
    and [nested_logins] are ghost counters: the number of [login()] calls
    in progress, and the number of calls of [login()] made while another
    one was in progress. *)
Record bstate := mk_bstate {
  cur_page : option page;
  request_host : option text;
  cookies : nat;
  next_id : nat;
  trace : list event;
  login_depth : nat;
  nested_logins : nat }.

Definition set_page_st (p : option page) (s : bstate) : bstate :=
  mk_bstate p (request_host s) (cookies s) (next_id s) (trace s) (login_depth s) (nested_logins s).

Definition emit_st (e : event) (s : bstate) : bstate :=
  mk_bstate (cur_page s) (request_host s) (cookies s) (next_id s) (trace s ++ [e])
    (login_depth s) (nested_logins s).

(** A visited response: [self.request] and the cookie jar are updated. *)
Definition visit_st (r : response) (s : bstate) : bstate :=
  mk_bstate (cur_page s) (Some (resp_host r)) (resp_cookies r) (next_id s) (trace s)
    (login_depth s) (nested_logins s).

(** A response opened without visit: only the cookie jar changes. *)
Definition novisit_st (r : response) (s : bstate) : bstate :=
  mk_bstate (cur_page s) (request_host s) (resp_cookies r) (next_id s) (trace s)
    (login_depth s) (nested_logins s).

(** [self.page = pageCls(...)]: the new object gets the next identity. *)
Definition construct_st (cls : page_cls) (url : text) (gs : groups) (s : bstate) : bstate :=
  mk_bstate (Some (mk_page (next_id s) cls url gs)) (request_host s) (cookies s)
    (S (next_id s)) (trace s ++ [EvPage (next_id s)]) (login_depth s) (nested_logins s).

Definition enter_login_st (s : bstate) : bstate :=
  mk_bstate (cur_page s) (request_host s) (cookies s) (next_id s) (trace s ++ [EvLogin])
    (S (login_depth s)) (if login_depth s =? 0 then nested_logins s else S (nested_logins s)).

Definition leave_login_st (s : bstate) : bstate :=
  mk_bstate (cur_page s) (request_host s) (cookies s) (next_id s) (trace s)
    (pred (login_depth s)) (nested_logins s).


(** A state and exception monad for the methods of the browser. *)
Definition M (A : Type) : Type := bstate -> bstate * (exn + A).

Definition ret {A} (a : A) : M A := fun s => (s, inr a).
Definition throw {A} (e : exn) : M A := fun s => (s, inl e).
Definition bind {A B} (m : M A) (k : A -> M B) : M B :=
  fun s => let (s', r) := m s in
           match r with inl e => (s', inl e) | inr a => k a s' end.
Definition get : M bstate := fun s => (s, inr s).
Definition modify (f : bstate -> bstate) : M unit := fun s => (f s, inr tt).

Notation "x <- c1 ;; c2" := (bind c1 (fun x => c2))
  (at level 61, c1 at next level, right associativity).
Notation "c1 ;; c2" := (bind c1 (fun _ => c2)) (at level 61, right associativity).

(** [try: m except ...]: [h e] is the handler of the first [except] clause
    that catches [e], if any. *)
Definition try_except {A} (m : M A) (h : exn -> option (M A)) : M A :=
  fun s => let (s', r) := m s in
           match r with
           | inl e => match h e with Some hm => hm s' | None => (s', inl e) end
           | inr a => (s', inr a)
           end.

(** [try: m finally: f]. *)
Definition try_finally {A} (m : M A) (f : M unit) : M A :=
  fun s => let (s1, r) := m s in
           let (s2, r2) := f s1 in
           match r2 with inl e => (s2, inl e) | inr _ => (s2, r) end.

Definition emit (e : event) : M unit := modify (emit_st e).

(** The methods of [BaseBrowser] that a navigation may enter again. *)
Inductive call :=
| CLocation (url : text) (no_login : bool)
| CSubmit (url : text) (nologin : bool)
| COpenurl (url : text)
| CHome.

Definition is_transport_error (e : exn) : bool :=
  match e with HTTPError _ | URLError | BadStatusLine => true | _ => false end.

(** [get_exception]. *)
Definition get_exception (e : exn) : exn :=
  match e with HTTPError 404 => BrowserHTTPNotFound | _ => BrowserHTTPError end.

(** Modelled from the spec: the decorator [retry(BrowserHTTPError, tries=3)]
    of [weboob.tools.decorators] (not in the sources) calls the function up
    to three times, again while it raises [BrowserHTTPError], and lets the
    last call's outcome through. *)
Fixpoint retry_loop (mtries : nat) (f : M unit) : M unit :=
  match mtries with
  | S m =>
      match m with
      | S _ => try_except f (fun e => match e with
                                      | BrowserHTTPError => Some (retry_loop m f)
                                      | _ => None
                                      end)
      | O => f
      end
  | O => f
  end.

Definition retry_BrowserHTTPError (f : M unit) : M unit := retry_loop 3 f.

Section Engine.

Variable B : browser_cls.

(** The decorator [check_location] on a string URL: a URL starting with
    ['/'] gets [PROTOCOL://DOMAIN] put in front when there is no request
    yet or the request's host is not [DOMAIN]; then
    [re.sub] of the greedy pattern [( .* ) # .*] (without the spaces) by
    group 1. A [DOMAIN] of [None] is formatted as the text None. *)
Definition check_location (req_host : option text) (url : text) : exn + text :=
  let host_differs := match req_host, DOMAIN B with
                      | None, _ => true
                      | Some h, Some d => negb (text_eqb h d)
                      | Some _, None => true
                      end in
  let url := if starts_with_slash url && host_differs
             then PROTOCOL B ++ T "://" ++ match DOMAIN B with Some d => d | None => T "None" end
                  ++ url
             else url in
  re_sub (T "(.*)#.*") (T "\1") url.

(** [mechanize.Browser.open] (a visit) and [open_novisit]. *)
Definition mech_open (url : text) : M response :=
  s <- get ;;
  match net B (cookies s) url with
  | NResp r => modify (visit_st r) ;; ret r
  | NFail e => throw e
  end.

Definition mech_open_novisit (url : text) : M response :=
  s <- get ;;
  match net B (cookies s) url with
  | NResp r => modify (novisit_st r) ;; ret r
  | NFail e => throw e
  end.

Variable self : call -> M unit.

Definition run_action (a : action) : M unit :=
  match a with
  | ALocation u nl => self (CLocation u nl)
  | ASubmit u nl => self (CSubmit u nl)
  | AOpenurl u => self (COpenurl u)
  | AHome => self CHome
  | ARaise e => throw e
  end.

Definition run_prog (p : prog) : M unit := fold_right (fun a k => run_action a ;; k) (ret tt) p.

(** [self.login()], between the ghost counters' entry and exit. *)
Definition login : M unit :=
  modify enter_login_st ;; try_finally (run_prog (login_prog B)) (modify leave_login_st).

(** [BaseBrowser._change_location]. *)
Definition change_location (result : response) (no_login : bool) : M unit :=
  let url := geturl result in
  match dispatch (PAGES B) url with
  | inl e => throw e
  | inr None =>
      modify (set_page_st None) ;; emit (EvWarning url) ;; emit (EvSaved url)
  | inr (Some (cls, gs)) =>
      emit (EvWentOn url) ;;
      (if SAVE_RESPONSES B then emit (EvSaved url) else ret tt) ;;
      modify (construct_st cls url gs) ;;
      s <- get ;;
      if negb no_login && (match password B with Some _ => true | None => false end)
         && negb (is_logged B (cur_page s) (cookies s))
      then emit EvRelogin ;; login ;; throw BrowserRetry
      else emit (EvOnLoaded (pred (next_id s))) ;; run_prog (on_loaded B cls)
  end.

(** The body of [BaseBrowser.location], for the URL [check_location] gave. *)
Definition location_body (url : text) (no_login : bool) : M unit :=
  try_except (r <- mech_open url ;; change_location r no_login)
    (fun e => match e with
     | BrowserRetry => Some (
         s <- get ;;
         if match cur_page s with None => true | Some p => negb (text_eqb (page_url p) url) end
         then emit EvRetryNav ;; self (CLocation url true)
         else ret tt)
     | HTTPError _ | URLError | BadStatusLine =>
         Some (modify (set_page_st None) ;; throw (get_exception e))
     | BrowserStateError => Some (self CHome ;; self (CLocation url no_login))
     | _ => None
     end).

(** [BaseBrowser.location] with its decorators [check_location] and
    [retry(BrowserHTTPError, tries=3)]. *)
Definition location (url : text) (no_login : bool) : M unit :=
  s <- get ;;
  match check_location (request_host s) url with
  | inl e => throw e
  | inr u => retry_BrowserHTTPError (location_body u no_login)
  end.

(** [BaseBrowser.submit] of a form whose action is [url]. *)
Definition submit (url : text) (nologin : bool) : M unit :=
  try_except (r <- mech_open url ;; change_location r nologin)
    (fun e => match e with
     | HTTPError _ | URLError | BadStatusLine =>
         Some (modify (set_page_st None) ;; throw (get_exception e))
     | BrowserStateError | BrowserRetry => Some (throw BrowserUnavailable)
     | _ => None
     end).

(** [StandardBrowser.openurl] with [if_fail='raise'], decorated like
    [location]; the response it returns is not used by the hooks. *)
Definition openurl_body (url : text) : M unit :=
  try_except (mech_open_novisit url ;; ret tt)
    (fun e => match e with
     | HTTPError _ | URLError | BadStatusLine => Some (throw (get_exception e))
     | BrowserStateError | BrowserRetry => Some (self CHome ;; mech_open url ;; ret tt)
     | _ => None
     end).

Definition openurl (url : text) : M unit :=
  s <- get ;;
  match check_location (request_host s) url with
  | inl e => throw e
  | inr u => retry_BrowserHTTPError (openurl_body u)
  end.

(** [BaseBrowser.home]. *)
Definition home : M unit :=
  match DOMAIN B with
  | Some d => self (CLocation (PROTOCOL B ++ T "://" ++ d ++ T "/") false)
  | None => ret tt
  end.

End Engine.

(** The methods tied together; a call nested more than [fuel] deep raises
    [RuntimeError], as Python does past its recursion limit. *)
Fixpoint exec (B : browser_cls) (fuel : nat) (c : call) : M unit :=
  match fuel with
  | O => throw RuntimeError
  | S f =>
      match c with
      | CLocation u nl => location B (exec B f) u nl
      | CSubmit u nl => submit B (exec B f) u nl
      | COpenurl u => openurl B (exec B f) u
      | CHome => home B (exec B f)
      end
  end.

(** ** Sample browsers *)

(** A [BaseBrowser] subclass for [http://x]. *)
Definition browser_x (pages : list (text * page_cls)) (pw : option text)
    (il : option page -> nat -> bool) (lp : prog) (ol : page_cls -> prog)
    (n : nat -> text -> net_result) : browser_cls :=
  mk_browser (Some (T "x")) (T "http") pages false pw il lp ol n.

Definition test_url : text := T "http://x/a".

(** A site that answers every URL with itself and keeps the cookie jar. *)
Definition echo_net (c : nat) (u : text) : net_result := NResp (mk_response u (T "x") c).

(** A fresh browser: no page, no request yet. *)
Definition empty_state : bstate := mk_bstate None None 0 0 [] 0 0.

(** A site that answers 500 to every request. *)
Definition down_net (c : nat) (u : text) : net_result := NFail (HTTPError 500).

(** A browser on [http://x] with one catch-all binding to the class [P]. *)
Definition catch_all : list (text * page_cls) := [(T "http://x/.*", "P"%string)].

(** A browser on [http://x] with one binding, for [http://x/b] only. *)
Definition b_only : list (text * page_cls) := [(T "http://x/b", "P"%string)].

(** A browser that has the page [P] of [http://x/b] as its current page. *)
Definition on_b_state : bstate :=
  set_page_st (Some (mk_page 0 "P"%string (T "http://x/b") [])) empty_state.

(** The state in which [_change_location] asks [is_logged()], once it
    logged the response [r] reached from [s] and built the page for [cls]. *)
Definition built_st (B : browser_cls) (r : response) (cls : page_cls) (gs : groups)
    (s : bstate) : bstate :=
  let url := geturl r in
  let s0 := emit_st (EvWentOn url) s in
  construct_st cls url gs (if SAVE_RESPONSES B then emit_st (EvSaved url) s0 else s0).

(** The same once [mechanize.Browser.open] visited [r] from [s]. *)
Definition relogin_state (B : browser_cls) (r : response) (cls : page_cls) (gs : groups)
    (s : bstate) : bstate :=
  built_st B r cls gs (visit_st r s).

(** ** Properties of computations and hooks *)

(** The exceptions [get_exception] turns a transport failure into. *)
Definition is_http_failure (e : exn) : bool :=
  match e with BrowserHTTPError | BrowserHTTPNotFound => true | _ => false end.

(** [m] leaves no current page whenever it ends in [BrowserHTTPError] or
    [BrowserHTTPNotFound]. *)
Definition clears_page_on_http_failure {A} (m : M A) : Prop :=
  forall s s' e, m s = (s', inl e) -> is_http_failure e = true -> cur_page s' = None.

(** A hook action that calls neither [openurl] nor raises an HTTP failure
    itself. *)
Definition no_openurl_action (a : action) : bool :=
  match a with AOpenurl _ => false | ARaise e => negb (is_http_failure e) | _ => true end.

(** The transport only fails as [mechanize] does. *)
Definition net_fails_as_transport (B : browser_cls) : Prop :=
  forall c u e, net B c u = NFail e -> is_transport_error e = true \/ e = BrowserStateError.

Definition is_openurl (c : call) : bool := match c with COpenurl _ => true | _ => false end.

(** [m] changes neither ghost counter of [login()] and never ends in
    [BrowserStateError]. *)
Definition keeps_logins {A} (m : M A) : Prop :=
  forall s s' r, m s = (s', r) ->
  login_depth s' = login_depth s /\ nested_logins s' = nested_logins s /\ r <> inl BrowserStateError.

(** Started with no [login()] in progress, [m] ends with none in progress
    and adds no nested call of [login()]. *)
Definition no_nested_login {A} (m : M A) : Prop :=
  forall s s' r, login_depth s = 0 -> m s = (s', r) ->
  login_depth s' = 0 /\ nested_logins s' = nested_logins s.

(** A hook action that navigates only with [no_login=True] (or [openurl]),
    does not call [home] and does not raise [BrowserStateError]. *)
Definition no_login_action (a : action) : bool :=
  match a with
  | ALocation _ nl | ASubmit _ nl => nl
  | AOpenurl _ => true
  | AHome => false
  | ARaise e => match e with BrowserStateError => false | _ => true end
  end.

Definition is_no_login_call (c : call) : bool :=
  match c with
  | CLocation _ nl | CSubmit _ nl => nl
  | COpenurl _ => true
  | CHome => false
  end.

(** The transport fails only with [HTTPError], [URLError] or [BadStatusLine]. *)
Definition net_transport_only (B : browser_cls) : Prop :=
  forall c u e, net B c u = NFail e -> is_transport_error e = true.

(** ** More of [tools/browser/browser.py] *)

(** [BaseBrowser.absurl]; [None] stays [None], and a [DOMAIN] of [None] is
    formatted as the text None. *)
Definition absurl (B : browser_cls) (rel : option text) : option text :=
  match rel with
  | None => None
  | Some r =>
      let r := if starts_with_slash r then r else "/"%char :: r in
      Some (PROTOCOL B ++ T "://" ++ match DOMAIN B with Some d => d | None => T "None" end ++ r)
  end.

(** [urllib.always_safe] of Python 2.7: letters, digits and [_.-]. *)
Definition always_safe (c : ascii) : bool :=
  ((65 <=? code c) && (code c <=? 90)) || ((97 <=? code c) && (code c <=? 122))
  || is_digit c || ascii_eqb c "_" || ascii_eqb c "." || ascii_eqb c "-".

(** An upper-case hexadecimal digit, as [%02X] writes it. *)
Definition hex_char (n : nat) : ascii := if n <? 10 then chr (48 + n) else chr (55 + n).

(** What [urllib.quote_plus] (with [safe='']) writes for one byte: a safe
    byte itself, a space as [+], any other byte as [%XX]. [quote_plus]
    quotes with the space kept and then replaces it by [+]; [quote]
    maps every byte through the same table. *)
Definition quote_plus_char (c : ascii) : text :=
  if always_safe c then [c]
  else if ascii_eqb c " " then ["+"%char]
  else ["%"%char; hex_char (code c / 16); hex_char (code c mod 16)].

Definition quote_plus (s : text) : text := flat_map quote_plus_char s.

(** [urllib.urlencode(query)] on a sequence of pairs of strings
    ([doseq=0]): [quote_plus(k) + '=' + quote_plus(v)] joined by [&]. *)
Definition urlencode (query : list (text * text)) : text :=
  join (T "&") (map (fun kv => quote_plus (fst kv) ++ T "=" ++ quote_plus (snd kv)) query).

(** [StandardBrowser.buildurl(base, *args, **kwargs)] with string keys and
    values: the pairs of [args], or else the items of the dict [kwargs]
    in its slot order. *)
Definition buildurl (base : text) (args : list (text * text)) (kwargs : PyDict.table text) : text :=
  let args := match args with [] => PyDict.items kwargs | _ => args end in
  match args with
  | [] => base
  | _ => base ++ T "?" ++ urlencode args
  end.

(** [str.split(sep)]: ["".split(sep)] is [[""]]. *)
Fixpoint split_on (sep : ascii) (s : text) : list text :=
  match s with
  | [] => [[]]
  | c :: r =>
      if ascii_eqb c sep then [] :: split_on sep r
      else match split_on sep r with
           | x :: xs => (c :: x) :: xs
           | [] => [[c]]
           end
  end.

(** [str.split(sep, 1)] when [sep] occurs: the text before and after the
    first occurrence. *)
Fixpoint split1 (sep : ascii) (s : text) : option (text * text) :=
  match s with
  | [] => None
  | c :: r =>
      if ascii_eqb c sep then Some ([], r)
      else match split1 sep r with Some (a, b) => Some (c :: a, b) | None => None end
  end.

Definition is_hex (c : ascii) : bool :=
  is_digit c || ((65 <=? code c) && (code c <=? 70)) || ((97 <=? code c) && (code c <=? 102)).

Definition hex_value (c : ascii) : nat :=
  if is_digit c then code c - 48 else if code c <=? 70 then code c - 55 else code c - 87.

(** [urllib.unquote] of Python 2.7: a [%] followed by two hexadecimal
    digits is the byte they denote; any other [%] is kept. (The library
    splits on [%] and decodes the first two characters of each piece,
    which comes to this left-to-right scan.) *)
Fixpoint unquote (s : text) : text :=
  match s with
  | [] => []
  | c :: s' =>
      if ascii_eqb c "%" then
        match s' with
        | a :: b :: r =>
            if is_hex a && is_hex b then chr (hex_value a * 16 + hex_value b) :: unquote r
            else c :: unquote s'
        | _ => c :: unquote s'
        end
      else c :: unquote s'
  end.

(** [unquote(x.replace('+', ' '))]. *)
Definition unquote_plus (s : text) : text :=
  unquote (map (fun c => if ascii_eqb c "+" then " "%char else c) s).

(** One field [name_value] of [urlparse.parse_qsl] of Python 2.7 (not
    strict), split at its first [=]. *)
Definition parse_qsl_field (keep_blank : bool) (nv : text) : list (text * text) :=
  match nv with
  | [] => []
  | _ =>
      let nv2 := match split1 "=" nv with
                 | Some p => Some p
                 | None => if keep_blank then Some (nv, []) else None
                 end in
      match nv2 with
      | Some (n, v) =>
          if negb (match v with [] => true | _ => false end) || keep_blank
          then [(unquote_plus n, unquote_plus v)] else []
      | None => []
      end
  end.

(** [urlparse.parse_qsl(qs, keep_blank_values)]: the fields are split on
    [&] and then on [;]. *)
Definition parse_qsl (keep_blank : bool) (qs : text) : list (text * text) :=
  flat_map (parse_qsl_field keep_blank) (flat_map (split_on ";") (split_on "&" qs)).

(** The form fields [set_field] writes: a string, or the list of items of
    a list control. [is_list.index(...)] gives an integer item. *)
Inductive form_item := IText (t : text) | IIndex (n : nat).
Inductive form_value := FText (t : text) | FItems (l : list form_item).

(** The [is_list] argument: a boolean, or a list or tuple of strings. *)
Inductive is_list_arg := ILBool (b : bool) | ILSeq (l : list text).

Fixpoint index_of (x : text) (l : list text) : option nat :=
  match l with
  | [] => None
  | y :: l' => if text_eqb y x then Some 0 else option_map S (index_of x l')
  end.

Section Form.

(** A control of the selected form, and mechanize's setter of its value
    ([control.value = v], not in the sources): it stores the value, or
    raises an error of [setter_error] ([ValueError] for a read-only or
    disabled control, [TypeError] for a value of the wrong kind,
    [ItemNotFoundError] for an item the control does not have). *)
Context {control setter_error : Type}.
Variable set_value : control -> form_value -> setter_error + control.

(** The controls of the selected form, by name. *)
Definition form := list (text * control).

(** [mechanize.HTMLForm.__setitem__] (not in the sources): [find_control]
    by name finds no control ([ControlNotFoundError]), several
    ([AmbiguityError]), or one, whose setter then runs. *)
Inductive set_outcome :=
| ControlNotFound
| Ambiguous
| SetFailed (e : setter_error)
| ControlSet (f : form).

Fixpoint set_control (f : form) (name : text) (v : form_value) : set_outcome :=
  match f with
  | [] => ControlNotFound
  | (n, old) :: f' =>
      if text_eqb n name then
        if existsb (fun c => text_eqb (fst c) name) f' then Ambiguous
        else match set_value old v with
             | inl e => SetFailed e
             | inr c => ControlSet ((n, c) :: f')
             end
      else match set_control f' name v with
           | ControlSet g => ControlSet ((n, old) :: g)
           | o => o
           end
  end.

(** The exceptions [set_field] lets through: [AmbiguityError] and the
    errors of the setter. *)
Inductive form_error := AmbiguityError | SetterError (e : setter_error).

(** [StandardBrowser.set_field] on the selected form [frm]: [args] is a
    dict with distinct string keys whose values are strings or [None];
    [field] and [value] are strings or [None]. [self.str] leaves a byte
    string and an integer as they are. A value missing from a list
    [is_list] prints a message and returns, [ControlNotFoundError]
    returns. *)
Definition set_field (frm : form) (args : list (text * option text)) (label : text)
    (field value : option text) (is_list : is_list_arg) : form_error + form :=
  let field := match field with Some (c :: f) => c :: f | _ => label end in
  match assoc label args with
  | None | Some None => inr frm
  | Some (Some a) =>
      let v := match value with
               | Some (c :: v) => Some (FText (c :: v))
               | _ =>
                   match is_list with
                   | ILSeq (x :: l) =>
                       match index_of a (x :: l) with
                       | Some i => Some (FItems [IIndex i])
                       | None => None
                       end
                   | ILBool true => Some (FItems [IText a])
                   | ILSeq [] | ILBool false => Some (FText a)
                   end
               end in
      match v with
      | None => inr frm
      | Some v =>
          match set_control frm field v with
          | ControlNotFound => inr frm
          | Ambiguous => inl AmbiguityError
          | SetFailed e => inl (SetterError e)
          | ControlSet f' => inr f'
          end
      end
  end.

End Form.

Arguments ControlNotFound {control setter_error}.
Arguments Ambiguous {control setter_error}.
Arguments SetFailed {control setter_error} e.
Arguments ControlSet {control setter_error} f.
Arguments AmbiguityError {setter_error}.
Arguments SetterError {setter_error} e.

(** A sample setter, to run [set_field]: a control is its current value;
    a text control takes a string, a list control a list of string items,
    and anything else raises [TypeError]. *)
Inductive sample_error := STypeError.

Definition sample_set (old v : form_value) : sample_error + form_value :=
  match old, v with
  | FText _, FText t => inr (FText t)
  | FItems _, FItems l =>
      if forallb (fun it => match it with IText _ => true | IIndex _ => false end) l
      then inr (FItems l) else inl STypeError
  | _, _ => inl STypeError
  end.

Section EngineMore.

Variable B : browser_cls.
Variable self : call -> M unit.

(** [BaseBrowser.follow_link] to a link whose URL is [url]. *)
Definition follow_link (url : text) : M unit :=
  try_except (r <- mech_open B url ;; change_location B self r false)
    (fun e => match e with
     | HTTPError _ | URLError | BadStatusLine =>
         Some (modify (set_page_st None) ;; throw (get_exception e))
     | BrowserStateError | BrowserRetry => Some (home B self ;; throw BrowserUnavailable)
     | _ => None
     end).

End EngineMore.

(** [m] never ends in the internal signal [BrowserRetry]. *)
Definition no_retry_escape {A} (m : M A) : Prop :=
  forall s s' r, m s = (s', r) -> r <> inl BrowserRetry.

(** The transport never raises [BrowserRetry]. *)
Definition net_no_retry (B : browser_cls) : Prop :=
  forall c u, net B c u <> NFail BrowserRetry.

(** ** Auxiliary notions for the further properties *)

(** The byte map of [unquote_plus]: [+] is read as a space. *)
Definition plus_to_space (c : ascii) : ascii := if ascii_eqb c "+" then " "%char else c.

(** [t] holds no byte [sep]. *)
Definition no_sep (sep : ascii) (t : text) : bool := forallb (fun d => negb (ascii_eqb d sep)) t.

(** One [key=value] field written by [urlencode]. *)
Definition encode_pair (kv : text * text) : text := quote_plus (fst kv) ++ T "=" ++ quote_plus (snd kv).

(** What [Re.compile] gives for the pattern [( .* ) # .*] (without the
    spaces) of [check_location]. *)
Definition hash_re : Re.regex :=
  Re.RSeq (Re.RGroup 1 (Re.RSeq (Re.RStar Re.RAny true) Re.REmpty))
          (Re.RSeq (Re.RChar "#") (Re.RSeq (Re.RStar Re.RAny true) Re.REmpty)).

(** What one byte of the text becomes in [CleanDecimal.filter] with
    [replace_dots]: a [.] is dropped, a [,] becomes a [.], and of the
    other bytes only those of [[\d\-\.]] are kept. *)
Definition decimal_char_image (c : ascii) : text :=
  if ascii_eqb c "." then [] else if ascii_eqb c "," then ["."%char]
  else if numeric_char c then [c] else [].

(** * Theorems *)

Lemma text_eqb_eq : forall a b, text_eqb a b = true <-> a = b.
Proof.
  induction a as [|x a IH]; destruct b as [|y b]; simpl; split; intro H;
    try discriminate; try reflexivity.
  - apply andb_prop in H as [H1 H2]. apply Ascii.eqb_eq in H1.
    apply IH in H2. subst. reflexivity.
  - injection H as -> ->. apply andb_true_intro. split.
    + apply Ascii.eqb_refl.
    + apply IH. reflexivity.
Qed.

(** ** URL dispatch *)

Lemma dispatch_first_match :
  forall items url c g,
    dispatch items url = inr (Some (c, g)) <->
    exists pre key post,
      items = pre ++ (key, c) :: post /\
      Forall (fun b => try_binding (fst b) url = inr None) pre /\
      try_binding key url = inr (Some g).
Proof.
  induction items as [|[key value] rest IH]; intros url c g; simpl; split.
  - discriminate.
  - intros (pre & key & post & Heq & _). destruct pre; discriminate.
  - destruct (try_binding key url) as [e|[g'|]] eqn:Hb; try discriminate.
    + intro H. injection H as <- <-. exists [], key, rest. auto.
    + intro H. apply IH in H as (pre & k & post & -> & Hpre & Hk).
      exists ((key, value) :: pre), k, post. simpl. auto.
  - intros (pre & k & post & Heq & Hpre & Hk).
    destruct pre as [|b pre]; simpl in Heq; inversion Heq; subst.
    + rewrite Hk. reflexivity.
    + inversion Hpre as [|? ? Hb Hpre']; subst. simpl in Hb.
      rewrite Hb. apply IH. exists pre, k, post. auto.
Qed.

Lemma dispatch_only_match :
  forall items url key c g,
    In (key, c) items ->
    try_binding key url = inr (Some g) ->
    (forall b, In b items -> b <> (key, c) -> try_binding (fst b) url = inr None) ->
    dispatch items url = inr (Some (c, g)).
Proof.
  induction items as [|[k v] rest IH]; intros url key c g Hin Hk Hothers.
  - destruct Hin.
  - assert (Hrest : forall b, In b rest -> b <> (key, c) ->
                     try_binding (fst b) url = inr None)
      by (intros b Hb; apply Hothers; simpl; auto).
    simpl.
    destruct (list_eq_dec ascii_dec k key) as [->|Hkk];
      [destruct (string_dec v c) as [->|Hv]|].
    + rewrite Hk. reflexivity.
    + assert (Hn : (key, v) <> (key, c)) by congruence.
      pose proof (Hothers (key, v) (or_introl eq_refl) Hn) as H0. simpl in H0.
      rewrite H0. apply (IH url key c g); auto.
      destruct Hin as [Heq|Hin]; [congruence | exact Hin].
    + assert (Hn : (k, v) <> (key, c)) by congruence.
      pose proof (Hothers (k, v) (or_introl eq_refl) Hn) as H0. simpl in H0.
      rewrite H0. apply (IH url key c g); auto.
      destruct Hin as [Heq|Hin]; [congruence | exact Hin].
Qed.

Lemma creditdunord_items_rev :
  PAGES_items creditdunord_PAGES = rev creditdunord_PAGES.
Proof. vm_compute. reflexivity. Qed.

(** A key that starts with a quantifier repeats the anchor [^] of
    ['^%s$' % key], which [re.compile] refuses: the binding raises
    [re.error] whatever the URL, and so does [dispatch] when it reaches it. *)
Lemma try_binding_repeated_anchor : forall url,
  try_binding (T "*") url = inl ReError /\ try_binding (T "?http://x/.*") url = inl ReError.
Proof. intros url. split; reflexivity. Qed.

(** The wrapping ['^%s$' % key] is textual: a key with a top-level
    alternation is anchored on one side per alternative, so the key [a|b]
    takes the URL [ax], which it does not match as a whole. *)
Lemma dispatch_alternation_unanchored :
  dispatch [(T "a|b", "P"%string)] (T "ax") = inr (Some ("P"%string, [])).
Proof. vm_compute. reflexivity. Qed.




(** ** Text cleaner *)

Lemma clean_space_py_space :
  forall c, is_clean_space c = true -> is_py_space c = true.
Proof.
  intros c. unfold is_clean_space, is_re_space, is_py_space.
  generalize (code c) as n. intros n H.
  repeat rewrite orb_true_iff in *. repeat rewrite andb_true_iff in *.
  repeat rewrite Nat.eqb_eq in *. repeat rewrite Nat.leb_le in *. lia.
Qed.

Lemma not_py_space_not_clean :
  forall c, is_py_space c = false -> is_clean_space c = false.
Proof.
  intros c H. destruct (is_clean_space c) eqn:E; [|reflexivity].
  rewrite (clean_space_py_space c E) in H. discriminate.
Qed.

(** The output shape of [collapse_aux]: characters of the class are single
    spaces, never two in a row, never first when [in_run]. *)
Fixpoint collapsed (in_run : bool) (t : text) : Prop :=
  match t with
  | [] => True
  | c :: t' =>
      if is_clean_space c then c = " "%char /\ in_run = false /\ collapsed true t'
      else collapsed false t'
  end.

Lemma collapse_aux_collapsed : forall t b, collapsed b (collapse_aux b t).
Proof.
  induction t as [|c t IH]; intros b; simpl; [exact I|].
  destruct (is_clean_space c) eqn:Hc.
  - destruct b; [apply IH|]. simpl. auto.
  - simpl. rewrite Hc. apply IH.
Qed.

Lemma collapsed_collapse_aux : forall t b, collapsed b t -> collapse_aux b t = t.
Proof.
  induction t as [|c t IH]; intros b H; simpl in *; [reflexivity|].
  destruct (is_clean_space c) eqn:Hc.
  - destruct H as [-> [-> H]]. f_equal. apply IH. exact H.
  - f_equal. apply IH. exact H.
Qed.

Lemma collapsed_prefix : forall x y b, collapsed b (x ++ y) -> collapsed b x.
Proof.
  induction x as [|c x IH]; intros y b H; simpl in *; [exact I|].
  destruct (is_clean_space c).
  - destruct H as [H1 [H2 H3]]. eauto.
  - eauto.
Qed.

Lemma collapsed_lstrip : forall t b, collapsed b t -> collapsed false (lstrip t).
Proof.
  unfold lstrip. induction t as [|c t IH]; intros b H; simpl in *; [exact I|].
  destruct (is_py_space c) eqn:Hp.
  - destruct (is_clean_space c); [destruct H as [_ [_ H]]|]; eauto.
  - simpl. rewrite (not_py_space_not_clean c Hp) in *. exact H.
Qed.

Lemma dropwhile_suffix : forall p t, exists pre, t = pre ++ dropwhile p t.
Proof.
  intros p. induction t as [|c t [pre IH]]; simpl.
  - exists []. reflexivity.
  - destruct (p c).
    + exists (c :: pre). simpl. f_equal. exact IH.
    + exists []. reflexivity.
Qed.

Lemma rstrip_prefix : forall t, exists suf, t = rstrip t ++ suf.
Proof.
  intros t. destruct (dropwhile_suffix is_py_space (rev t)) as [pre Hpre].
  exists (rev pre). unfold rstrip.
  rewrite <- rev_app_distr, <- Hpre, rev_involutive. reflexivity.
Qed.

Lemma collapsed_strip : forall t, collapsed false t -> collapsed false (strip t).
Proof.
  intros t H. unfold strip.
  pose proof (collapsed_lstrip t false H) as Hl.
  destruct (rstrip_prefix (lstrip t)) as [suf Hsuf].
  rewrite Hsuf in Hl. exact (collapsed_prefix _ _ _ Hl).
Qed.

Lemma dropwhile_idem : forall p t, dropwhile p (dropwhile p t) = dropwhile p t.
Proof.
  intros p. induction t as [|c t IH]; simpl; [reflexivity|].
  destruct (p c) eqn:Hc; [exact IH|]. simpl. rewrite Hc. reflexivity.
Qed.

Lemma dropwhile_app : forall p l m,
  dropwhile p (l ++ m) =
  match dropwhile p l with [] => dropwhile p m | x => x ++ m end.
Proof.
  intros p. induction l as [|c l IH]; intros m; simpl; [reflexivity|].
  destruct (p c); [apply IH | reflexivity].
Qed.

Lemma dropwhile_head : forall p t,
  dropwhile p t = [] \/ exists c r, dropwhile p t = c :: r /\ p c = false.
Proof.
  intros p. induction t as [|c t IH]; simpl; [auto|].
  destruct (p c) eqn:Hc; [exact IH|]. right. exists c, t. auto.
Qed.

Lemma rstrip_cons : forall c r, is_py_space c = false -> exists y, rstrip (c :: r) = c :: y.
Proof.
  intros c r Hc. unfold rstrip. simpl. rewrite dropwhile_app.
  destruct (dropwhile is_py_space (rev r)) as [|x l].
  - simpl. rewrite Hc. exists []. reflexivity.
  - rewrite rev_app_distr. simpl. eexists. reflexivity.
Qed.

Lemma rstrip_idem : forall t, rstrip (rstrip t) = rstrip t.
Proof.
  intros t. unfold rstrip. rewrite rev_involutive, dropwhile_idem. reflexivity.
Qed.

Lemma strip_idem : forall t, strip (strip t) = strip t.
Proof.
  intros t. unfold strip at 2 3.
  destruct (dropwhile_head is_py_space t) as [H0 | (c & r & Hcr & Hc)];
    unfold lstrip; rewrite ?H0, ?Hcr.
  - reflexivity.
  - destruct (rstrip_cons c r Hc) as [y Hy]. unfold strip, lstrip. rewrite Hy.
    simpl. rewrite Hc, <- Hy. apply rstrip_idem.
Qed.

Lemma clean_text_idem : forall t, clean_text (clean_text t) = clean_text t.
Proof.
  intros t. unfold clean_text at 1. unfold collapse.
  rewrite (collapsed_collapse_aux (clean_text t) false).
  - apply strip_idem.
  - apply collapsed_strip. apply collapse_aux_collapsed.
Qed.

(** C7: the text cleaner [CleanText.clean] is idempotent on strings:
    cleaning the cleaned text gives it back. *)
Theorem CleanText_clean_idempotent :
  forall t : text,
    (let? x := CleanText_clean (VStr t) in CleanText_clean (VStr x))
    = CleanText_clean (VStr t).
Proof.
  intros t. simpl. rewrite clean_text_idem. reflexivity.
Qed.

(** ** Decimal parser *)

Lemma digit_not_py_space : forall c, is_digit c = true -> is_py_space c = false.
Proof.
  intros c. unfold is_digit, is_py_space. generalize (code c) as n. intros n H.
  apply andb_prop in H as [H1 H2]. apply Nat.leb_le in H1, H2.
  repeat match goal with |- context [?a <=? ?b] =>
    destruct (Nat.leb_spec a b) end;
  repeat match goal with |- context [?a =? ?b] =>
    destruct (Nat.eqb_spec a b) end; simpl; lia.
Qed.

Lemma digit_ascii_neq : forall d x,
  is_digit d = true -> is_digit x = false -> ascii_eqb d x = false /\ ascii_eqb x d = false.
Proof.
  intros d x Hd Hx. unfold ascii_eqb.
  destruct (Ascii.eqb d x) eqn:E.
  - apply Ascii.eqb_eq in E. subst. congruence.
  - split; [reflexivity|]. rewrite Ascii.eqb_sym. exact E.
Qed.

Lemma digit_lower : forall d, is_digit d = true -> lower d = d.
Proof.
  intros d Hd. unfold lower. unfold is_digit in Hd.
  apply andb_prop in Hd as [_ H2]. apply Nat.leb_le in H2.
  destruct (Nat.leb_spec 65 (code d)); [lia | reflexivity].
Qed.

Lemma no_space_dropwhile : forall t,
  forallb (fun c => negb (is_py_space c)) t = true -> dropwhile is_py_space t = t.
Proof.
  intros [|c t] H; simpl in *; [reflexivity|].
  apply andb_prop in H as [Hc _]. destruct (is_py_space c); [discriminate | reflexivity].
Qed.

Lemma no_space_collapse : forall t b,
  forallb (fun c => negb (is_py_space c)) t = true -> collapse_aux b t = t.
Proof.
  induction t as [|c t IH]; intros b H; simpl in *; [reflexivity|].
  apply andb_prop in H as [Hc Ht].
  destruct (is_py_space c) eqn:Hp; [discriminate|].
  rewrite (not_py_space_not_clean c Hp). f_equal. apply IH. exact Ht.
Qed.

Lemma no_space_strip : forall t,
  forallb (fun c => negb (is_py_space c)) t = true -> strip t = t.
Proof.
  intros t H. unfold strip, rstrip, lstrip. rewrite (no_space_dropwhile t H).
  rewrite no_space_dropwhile; [apply rev_involutive|].
  rewrite forallb_forall in *. intros c Hc. apply H. apply in_rev. exact Hc.
Qed.

Lemma no_space_clean_text : forall t,
  forallb (fun c => negb (is_py_space c)) t = true -> clean_text t = t.
Proof.
  intros t H. unfold clean_text, collapse. rewrite (no_space_collapse t false H).
  apply no_space_strip. exact H.
Qed.

Lemma py_replace_absent : forall t old new,
  forallb (fun c => negb (ascii_eqb c old)) t = true -> py_replace t old new = t.
Proof.
  induction t as [|c t IH]; intros old new H; simpl in *; [reflexivity|].
  apply andb_prop in H as [Hc Ht]. destruct (ascii_eqb c old); [discriminate|].
  simpl. f_equal. apply IH. exact Ht.
Qed.

Lemma py_replace_app : forall x y old new,
  py_replace (x ++ y) old new = py_replace x old new ++ py_replace y old new.
Proof. intros. unfold py_replace. apply flat_map_app. Qed.

Lemma py_replace_drop_dots : forall ip,
  forallb (fun c => is_digit c || ascii_eqb c ".") ip = true ->
  py_replace ip "." [] = filter is_digit ip.
Proof.
  induction ip as [|c ip IH]; intros H; simpl in *; [reflexivity|].
  apply andb_prop in H as [Hc Ht].
  destruct (is_digit c) eqn:Hd.
  - destruct (digit_ascii_neq c "." Hd eq_refl) as [E _]. rewrite E. simpl.
    f_equal. apply IH. exact Ht.
  - simpl in Hc. rewrite Hc. apply IH. exact Ht.
Qed.

Lemma span_digits_app : forall x c r,
  forallb is_digit x = true -> is_digit c = false -> span_digits (x ++ c :: r) = (x, c :: r).
Proof.
  induction x as [|d x IH]; intros c r Hx Hc; simpl in *.
  - rewrite Hc. reflexivity.
  - apply andb_prop in Hx as [Hd Hx]. rewrite Hd, (IH c r Hx Hc). reflexivity.
Qed.

Lemma span_digits_all : forall x, forallb is_digit x = true -> span_digits x = (x, []).
Proof.
  induction x as [|d x IH]; intros Hx; simpl in *; [reflexivity|].
  apply andb_prop in Hx as [Hd Hx]. rewrite Hd, (IH Hx). reflexivity.
Qed.

Lemma forallb_filter_digit : forall ip, forallb is_digit (filter is_digit ip) = true.
Proof.
  induction ip as [|c ip IH]; simpl; [reflexivity|].
  destruct (is_digit c) eqn:Hc; simpl; rewrite ?Hc; exact IH.
Qed.

Lemma forallb_impl : forall (f g : ascii -> bool) (l : text),
  (forall c, f c = true -> g c = true) -> forallb f l = true -> forallb g l = true.
Proof.
  intros f g l Hfg. rewrite !forallb_forall. intros H c Hc. apply Hfg, H, Hc.
Qed.

Lemma numeric_chars_no_space : forall t,
  forallb numeric_char t = true -> forallb (fun c => negb (is_py_space c)) t = true.
Proof.
  intros t. apply forallb_impl. intros c Hc. unfold numeric_char in Hc.
  destruct (is_digit c) eqn:Hd.
  - rewrite (digit_not_py_space c Hd). reflexivity.
  - simpl in Hc. apply orb_true_iff in Hc as [Hc|Hc];
      unfold ascii_eqb in Hc; apply Ascii.eqb_eq in Hc; subst; reflexivity.
Qed.

(** The parse of a numeric literal [sign digits '.' digits] once the
    filter has normalised it. *)
Lemma parse_decimal_plain : forall (neg : bool) (d : ascii) (ds fp : text),
  is_digit d = true -> forallb is_digit ds = true -> forallb is_digit fp = true ->
  parse_decimal ((if neg then T "-" else []) ++ d :: ds ++ T "." ++ fp)
  = Some (DFinite neg (digits_value (d :: ds ++ fp)) (- Z.of_nat (List.length fp))).
Proof.
  intros neg d ds fp Hd Hds Hfp.
  assert (Hns : forall c, is_digit c = true -> negb (is_py_space c) = true)
    by (intros c Hc; rewrite (digit_not_py_space c Hc); reflexivity).
  unfold parse_decimal.
  rewrite no_space_strip.
  2:{ apply numeric_chars_no_space. rewrite forallb_app. apply andb_true_intro. split.
      - destruct neg; reflexivity.
      - simpl. replace (numeric_char d) with true by (unfold numeric_char; rewrite Hd; reflexivity).
        simpl. rewrite forallb_app. apply andb_true_intro. split.
        + apply (forallb_impl is_digit); [|exact Hds].
          intros c Hc. unfold numeric_char. rewrite Hc. reflexivity.
        + simpl. apply (forallb_impl is_digit); [|exact Hfp].
          intros c Hc. unfold numeric_char. rewrite Hc. reflexivity. }
  destruct (digit_ascii_neq d "-" Hd eq_refl) as [Em _].
  destruct (digit_ascii_neq d "+" Hd eq_refl) as [Ep _].
  destruct (digit_ascii_neq d "i" Hd eq_refl) as [Ei _].
  destruct (digit_ascii_neq d "n" Hd eq_refl) as [_ En].
  destruct (digit_ascii_neq d "s" Hd eq_refl) as [_ Es].
  assert (Hbody :
    (let low := map lower (d :: ds ++ T "." ++ fp) in
     if text_eqb low (T "inf") || text_eqb low (T "infinity") then Some (DInfinity neg)
     else
     match strip_prefix (T "nan") low, strip_prefix (T "snan") low with
     | Some diag, _ => if forallb is_digit diag then Some (DNaN neg false) else None
     | None, Some diag => if forallb is_digit diag then Some (DNaN neg true) else None
     | None, None =>
         let '(ip, r1) := span_digits (d :: ds ++ T "." ++ fp) in
         let '(fp0, r2) :=
           match r1 with
           | c :: r => if ascii_eqb c "." then span_digits r else ([], r1)
           | [] => ([], [])
           end in
         match ip ++ fp0 with
         | [] => None
         | _ =>
             let e0 := (- Z.of_nat (List.length fp0))%Z in
             match r2 with
             | [] => Some (DFinite neg (digits_value (ip ++ fp0)) e0)
             | c :: r3 =>
                 if ascii_eqb (lower c) "e" then
                   match parse_exponent r3 with
                   | Some e => Some (DFinite neg (digits_value (ip ++ fp0)) (e + e0))
                   | None => None
                   end
                 else None
             end
         end
     end)
    = Some (DFinite neg (digits_value (d :: ds ++ fp)) (- Z.of_nat (List.length fp)))).
  { cbn -[ascii_eqb lower span_digits digits_value].
    rewrite (digit_lower d Hd), Ei.
    cbn -[ascii_eqb lower span_digits digits_value]. rewrite En, Es.
    change (d :: ds ++ "."%char :: fp) with ((d :: ds) ++ "."%char :: fp).
    rewrite (span_digits_app (d :: ds) "." fp)
      by first [reflexivity | cbn [forallb]; rewrite Hd; exact Hds].
    cbn -[lower span_digits digits_value]. rewrite (span_digits_all fp Hfp).
    reflexivity. }
  destruct neg; cbn -[ascii_eqb lower span_digits digits_value strip_prefix text_eqb];
    [exact Hbody|].
  rewrite Em, Ep. exact Hbody.
Qed.

Lemma filter_forallb_id : forall (f : ascii -> bool) (l : text),
  forallb f l = true -> filter f l = l.
Proof.
  intros f l. induction l as [|c l IH]; simpl; [reflexivity|].
  intros H. apply andb_prop in H as [Hc Hl]. rewrite Hc, (IH Hl). reflexivity.
Qed.

Lemma digit_or_dot_not_comma : forall c,
  is_digit c || ascii_eqb c "." = true -> ascii_eqb c "," = false.
Proof.
  intros c H. destruct (ascii_eqb c ",") eqn:E; [|reflexivity].
  apply Ascii.eqb_eq in E. subst c. discriminate H.
Qed.

Lemma digit_or_dot_no_space : forall c,
  is_digit c || ascii_eqb c "." = true -> negb (is_py_space c) = true.
Proof.
  intros c H. apply orb_prop in H as [H|H].
  - rewrite (digit_not_py_space c H). reflexivity.
  - apply Ascii.eqb_eq in H. subst c. reflexivity.
Qed.

(** The continental text [sign ++ ip ++ "," ++ fp] after cleaning and the
    [replace_dots] rewriting: the dots of [ip] go, the comma becomes the
    decimal point. *)
Lemma CleanDecimal_continental_text : forall (neg : bool) (ip fp : text),
  forallb (fun c => is_digit c || ascii_eqb c ".") ip = true ->
  forallb is_digit fp = true ->
  CleanText_filter [] (VStr ((if neg then T "-" else []) ++ ip ++ T "," ++ fp))
  = inr ((if neg then T "-" else []) ++ ip ++ T "," ++ fp)
  /\ keep_decimal_chars
       (py_replace (py_replace ((if neg then T "-" else []) ++ ip ++ T "," ++ fp) "." []) "," (T "."))
     = (if neg then T "-" else []) ++ filter is_digit ip ++ T "." ++ fp.
Proof.
  intros neg ip fp Hip Hfp.
  assert (Hfpd : forall c, is_digit c = true -> is_digit c || ascii_eqb c "." = true)
    by (intros c Hc; rewrite Hc; reflexivity).
  split.
  - unfold CleanText_filter. cbn [CleanText_clean].
    rewrite no_space_clean_text; [reflexivity|].
    rewrite !forallb_app. apply andb_true_intro. split; [destruct neg; reflexivity|].
    apply andb_true_intro. split; [apply (forallb_impl _ _ ip digit_or_dot_no_space Hip)|].
    cbn [forallb T list_ascii_of_string]. apply andb_true_intro. split; [reflexivity|].
    apply (forallb_impl is_digit); [|exact Hfp].
    intros c Hc. apply digit_or_dot_no_space, Hfpd, Hc.
  - rewrite !py_replace_app.
    rewrite (py_replace_drop_dots ip Hip).
    rewrite (py_replace_absent fp "." []).
    2:{ apply (forallb_impl is_digit); [|exact Hfp]. intros c Hc.
        destruct (digit_ascii_neq c "." Hc eq_refl) as [E _]. rewrite E. reflexivity. }
    rewrite (py_replace_absent (filter is_digit ip) "," (T ".")).
    2:{ apply (forallb_impl is_digit); [|apply forallb_filter_digit]. intros c Hc.
        destruct (digit_ascii_neq c "," Hc eq_refl) as [E _]. rewrite E. reflexivity. }
    rewrite (py_replace_absent fp "," (T ".")).
    2:{ apply (forallb_impl is_digit); [|exact Hfp]. intros c Hc.
        destruct (digit_ascii_neq c "," Hc eq_refl) as [E _]. rewrite E. reflexivity. }
    change (py_replace (py_replace (T ",") "." []) "," (T ".")) with (T ".").
    destruct neg;
      [change (py_replace (py_replace (T "-") "." []) "," (T ".")) with (T "-")
      |change (py_replace (py_replace [] "." []) "," (T ".")) with (@nil ascii)];
    apply filter_forallb_id;
    rewrite !forallb_app; apply andb_true_intro; (split; [reflexivity|]);
    apply andb_true_intro; split.
    + apply (forallb_impl is_digit); [|apply forallb_filter_digit].
      intros c Hc. unfold numeric_char. rewrite Hc. reflexivity.
    + cbn [forallb T list_ascii_of_string]. apply andb_true_intro. split; [reflexivity|].
      apply (forallb_impl is_digit); [|exact Hfp].
      intros c Hc. unfold numeric_char. rewrite Hc. reflexivity.
    + apply (forallb_impl is_digit); [|apply forallb_filter_digit].
      intros c Hc. unfold numeric_char. rewrite Hc. reflexivity.
    + cbn [forallb T list_ascii_of_string]. apply andb_true_intro. split; [reflexivity|].
      apply (forallb_impl is_digit); [|exact Hfp].
      intros c Hc. unfold numeric_char. rewrite Hc. reflexivity.
Qed.

(** C6: [CleanDecimal] with [replace_dots] (the continental format) maps a
    sign, an integer part of digits and thousands dots, a comma and a
    fractional part of digits to the exact decimal whose coefficient is the
    digits read as one integer and whose exponent is minus the number of
    fractional digits; no rounding happens, whatever the number of
    fractional digits (so ["1.234,56"] is [123456 * 10^-2] and ["-12,00"] is
    [-1200 * 10^-2]). *)
Theorem CleanDecimal_continental_exact : forall (default : option value) (neg : bool) (ip fp : text),
  forallb (fun c => is_digit c || ascii_eqb c ".") ip = true ->
  filter is_digit ip <> [] ->
  forallb is_digit fp = true ->
  CleanDecimal_filter true default (VStr ((if neg then T "-" else []) ++ ip ++ T "," ++ fp))
  = inr (VDecimal (DFinite neg (digits_value (filter is_digit ip ++ fp))
                              (- Z.of_nat (List.length fp)))).
Proof.
  intros default neg ip fp Hip Hne Hfp.
  destruct (CleanDecimal_continental_text neg ip fp Hip Hfp) as [H1 H2].
  unfold CleanDecimal_filter. rewrite H1. cbn beta iota. rewrite H2.
  pose proof (forallb_filter_digit ip) as Hd.
  destruct (filter is_digit ip) as [|d ds]; [contradiction|].
  cbn [forallb] in Hd. apply andb_prop in Hd as [Hd Hds].
  unfold Decimal. rewrite <- app_comm_cons. rewrite (parse_decimal_plain neg d ds fp Hd Hds Hfp). reflexivity.
Qed.

Lemma CleanDecimal_continental_exact_witness :
  CleanDecimal_filter true None (VStr (T "1.234,56")) = inr (VDecimal (DFinite false 123456 (-2)))
  /\ CleanDecimal_filter true None (VStr (T "-12,00")) = inr (VDecimal (DFinite true 1200 (-2)))
  /\ CleanDecimal_filter true None (VStr (T "0,000001"))
     = inr (VDecimal (DFinite false 1 (-6))).
Proof.
  split; [|split].
  - exact (CleanDecimal_continental_exact None false (T "1.234") (T "56")
             eq_refl ltac:(discriminate) eq_refl).
  - exact (CleanDecimal_continental_exact None true (T "12") (T "00")
             eq_refl ltac:(discriminate) eq_refl).
  - exact (CleanDecimal_continental_exact None false (T "0") (T "000001")
             eq_refl ltac:(discriminate) eq_refl).
Defined.

(** ** Defaults of the filters *)

(** C5 (counterexample): without a default, [CleanDecimal] on a text with
    no number raises [InvalidOperation], which is not a lookup error; with
    the default ["0"] it returns [Decimal("0")], not the configured string. *)
Lemma filter_default_not_lookup :
  CleanDecimal_filter true None (VStr (T "abc")) = inl InvalidOperation
  /\ is_lookup_error InvalidOperation = false
  /\ CleanDecimal_filter true (Some (VStr (T "0"))) (VStr (T "abc"))
     = inr (VDecimal (DFinite false 0 0)).
Proof. vm_compute. repeat split. Qed.

Lemma TableCell_go_missing : forall (names : list text) (default : option value) (r : row),
  Forall (fun n => get_colnum r n = None) names ->
  TableCell_call names default r = default_or default KeyError.
Proof.
  intros names default r H. unfold TableCell_call.
  induction H as [|n ns Hn _ IH]; [reflexivity|]. rewrite Hn. exact IH.
Qed.

(** C5 (amended): on an input from which a filter extracts nothing, a
    filter built with a default [d] returns [d] itself, except [CleanDecimal]
    which returns [Decimal(d)]; built without a default, [Map], [Regexp] and
    [TableCell] raise [KeyError], [Attr] raises [KeyError] on a missing
    attribute, [Time] raises [ValueError] and [CleanDecimal] raises
    [InvalidOperation]. *)
Theorem filter_default_on_failure :
  (forall (md : list (text * value)) (d : value) (t : text),
     assoc t md = None ->
     Map_filter md (Some d) (VStr t) = inr d /\ Map_filter md None (VStr t) = inl KeyError)
  /\ (forall (p : Re.regex * nat) (tpl : option text) (d : value) (t : text),
     Re.search p t = None ->
     Regexp_filter p tpl (Some d) (VStr t) = inr d
     /\ Regexp_filter p tpl None (VStr t) = inl KeyError)
  /\ (forall (names : list text) (d : value) (r : row),
     Forall (fun n => get_colnum r n = None) names ->
     TableCell_call names (Some d) r = inr d /\ TableCell_call names None r = inl KeyError)
  /\ (forall (attr : text) (d : value),
     Attr_filter attr (Some d) (VList []) = inr d)
  /\ (forall (attr : text) (d : value) (n : node) (rest : list value),
     assoc attr (attrib n) = None ->
     Attr_filter attr (Some d) (VList (VNode n :: rest)) = inr d
     /\ Attr_filter attr None (VList (VNode n :: rest)) = inl KeyError)
  /\ (forall (d : value) (t : text) (p : Re.regex * nat),
     Re.compile time_pattern = Some p -> Re.search p t = None ->
     Time_filter (Some d) (VStr t) = inr d /\ Time_filter None (VStr t) = inl ValueError)
  /\ (forall (rd : bool) (d v : value) (t : text),
     CleanText_filter [] v = inr t ->
     parse_decimal (keep_decimal_chars
                      (if rd then py_replace (py_replace t "." []) "," (T ".") else t)) = None ->
     CleanDecimal_filter rd (Some d) v = (let? x := Decimal d in inr (VDecimal x))
     /\ CleanDecimal_filter rd None v = inl InvalidOperation).
Proof.
  split; [|split; [|split; [|split; [|split; [|split]]]]].
  - intros md d t H. simpl. rewrite H. split; reflexivity.
  - intros p tpl d t H. unfold Regexp_filter. rewrite H. split; reflexivity.
  - intros names d r H. rewrite !(TableCell_go_missing names _ r H). split; reflexivity.
  - intros attr d. reflexivity.
  - intros attr d n rest H. simpl. rewrite H. split; reflexivity.
  - intros d t p Hc Hs. unfold Time_filter. rewrite Hc, Hs. split; reflexivity.
  - intros rd d v t Hc Hp. unfold CleanDecimal_filter. rewrite Hc. cbn beta iota.
    assert (HD : Decimal (VStr (keep_decimal_chars
                   (if rd then py_replace (py_replace t "." []) "," (T ".") else t)))
                 = inl InvalidOperation) by (unfold Decimal; rewrite Hp; reflexivity).
    rewrite HD. split; reflexivity.
Qed.

Lemma filter_default_on_failure_witness :
  Map_filter [(T "a", VInt 1)] (Some VNone) (VStr (T "b")) = inr VNone
  /\ Regexp_filter (Re.RChar "x", 0) None (Some VNone) (VStr (T "abc")) = inr VNone
  /\ TableCell_call [T "date"] None (mk_row [(T "label", 0)] []) = inl KeyError
  /\ Attr_filter (T "href") (Some (VStr (T "#"))) (VList []) = inr (VStr (T "#"))
  /\ Attr_filter (T "href") None (VList [VNode (mk_node [] [])]) = inl KeyError
  /\ Time_filter (Some VNone) (VStr (T "abc")) = inr VNone
  /\ CleanDecimal_filter true (Some (VStr (T "0"))) (VStr (T "abc"))
     = inr (VDecimal (DFinite false 0 0)).
Proof.
  destruct filter_default_on_failure as (HM & HR & HT & HA & HK & HTi & HC).
  split; [exact (proj1 (HM [(T "a", VInt 1)] VNone (T "b") eq_refl))|].
  split; [exact (proj1 (HR (Re.RChar "x", 0) None VNone (T "abc") ltac:(vm_compute; reflexivity)))|].
  split; [exact (proj2 (HT [T "date"] VNone (mk_row [(T "label", 0)] [])
                           ltac:(repeat constructor)))|].
  split; [exact (HA (T "href") (VStr (T "#")))|].
  split; [exact (proj2 (HK (T "href") VNone (mk_node [] []) [] eq_refl))|].
  split.
  - exact (proj1 (HTi VNone (T "abc")
                    (match Re.compile time_pattern with Some p => p | None => (Re.REmpty, 0) end)
                    ltac:(vm_compute; reflexivity) ltac:(vm_compute; reflexivity))).
  - exact (proj1 (HC true (VStr (T "0")) (VStr (T "abc")) (T "abc") eq_refl
                    ltac:(vm_compute; reflexivity))).
Defined.

(** ** Navigation *)





(** C9 (divergence): [check_location] removes the text from the last ['#']
    on, not from the first: with no request yet, ["/a#b#c"] becomes
    ["http://x/a#b"], which still holds the fragment's ["#b"]. *)
Lemma check_location_keeps_first_hash :
  check_location (browser_x [] None (fun _ _ => true) [] (fun _ => []) echo_net) None
    (T "/a#b#c")
  = inr (T "http://x/a#b").
Proof. vm_compute. reflexivity. Qed.

(** C10 (counterexample): a page whose [on_loaded] opens a URL with
    [openurl] on which the site answers 500: [openurl] raises
    [BrowserHTTPError] itself, [location] does not catch it, the decorator
    retries and lets it through, and the page built by the navigation stays
    current. *)
Lemma location_http_failure_keeps_page :
  exists s',
    exec (browser_x catch_all None (fun _ _ => true) []
            (fun _ => [AOpenurl (T "http://x/bad")])
            (fun c u => if text_eqb u (T "http://x/bad") then NFail (HTTPError 500)
                        else echo_net c u))
         4 (CLocation test_url false) empty_state = (s', inl BrowserHTTPError)
    /\ cur_page s' <> None.
Proof. eexists. split; [vm_compute; reflexivity | vm_compute; discriminate]. Qed.

Lemma clears_ret : forall A (a : A), clears_page_on_http_failure (ret a).
Proof. intros A a s s' e H. discriminate H. Qed.

Lemma clears_throw : forall A e, is_http_failure e = false ->
  clears_page_on_http_failure (@throw A e).
Proof. intros A e He s s' e' H. injection H as _ <-. rewrite He. discriminate. Qed.

Lemma clears_modify : forall f, clears_page_on_http_failure (modify f).
Proof. intros f s s' e H. discriminate H. Qed.

Lemma clears_get : clears_page_on_http_failure get.
Proof. intros s s' e H. discriminate H. Qed.

Lemma clears_bind : forall A C (m : M A) (k : A -> M C),
  clears_page_on_http_failure m -> (forall a, clears_page_on_http_failure (k a)) ->
  clears_page_on_http_failure (bind m k).
Proof.
  intros A C m k Hm Hk s s' e H He. unfold bind in H.
  destruct (m s) as [s1 [e1|a]] eqn:E.
  - injection H as <- <-. exact (Hm s s1 e1 E He).
  - exact (Hk a s1 s' e H He).
Qed.

Lemma clears_emit : forall ev, clears_page_on_http_failure (emit ev).
Proof. intros ev. apply clears_modify. Qed.

Create HintDb clears.
#[local] Hint Resolve clears_ret clears_modify clears_get clears_bind clears_emit : clears.

Lemma clears_run_prog : forall (self : call -> M unit) (p : prog),
  (forall c, is_openurl c = false -> clears_page_on_http_failure (self c)) ->
  forallb no_openurl_action p = true ->
  clears_page_on_http_failure (run_prog self p).
Proof.
  intros self p Hself. induction p as [|a p IH]; intros Hp; cbn [run_prog fold_right].
  - apply clears_ret.
  - cbn [forallb] in Hp. apply andb_prop in Hp as [Ha Hp].
    apply clears_bind; [|intros _; exact (IH Hp)].
    destruct a; cbn [run_action]; try (apply Hself; reflexivity).
    + discriminate Ha.
    + apply clears_throw. cbn [no_openurl_action] in Ha. destruct (is_http_failure e); auto.
Qed.

Lemma clears_login : forall (B : browser_cls) (self : call -> M unit),
  (forall c, is_openurl c = false -> clears_page_on_http_failure (self c)) ->
  forallb no_openurl_action (login_prog B) = true ->
  clears_page_on_http_failure (login B self).
Proof.
  intros B self Hself Hp. unfold login. apply clears_bind; [apply clears_modify|intros _].
  intros s s' e H He. unfold try_finally in H.
  destruct (run_prog self (login_prog B) s) as [s1 r] eqn:E.
  unfold modify in H. destruct r as [e1|u]; [injection H as <- <- | discriminate H].
  exact (clears_run_prog self _ Hself Hp s s1 e1 E He).
Qed.

Lemma dispatch_error_re : forall items url e, dispatch items url = inl e -> e = ReError.
Proof.
  induction items as [|[key v] items IH]; intros url e H; simpl in H; [discriminate H|].
  unfold try_binding in H. destruct (Re.compile (T "^" ++ key ++ T "$")) as [p|].
  - destruct (Re.rmatch p url); [discriminate H|exact (IH url e H)].
  - injection H as <-. reflexivity.
Qed.

Lemma clears_change_location : forall (B : browser_cls) (self : call -> M unit) r nl,
  (forall c, is_openurl c = false -> clears_page_on_http_failure (self c)) ->
  forallb no_openurl_action (login_prog B) = true ->
  (forall cls, forallb no_openurl_action (on_loaded B cls) = true) ->
  clears_page_on_http_failure (change_location B self r nl).
Proof.
  intros B self r nl Hself Hl Ho. unfold change_location.
  destruct (dispatch (PAGES B) (geturl r)) as [e|[[cls gs]|]] eqn:Hd.
  - apply clears_throw. rewrite (dispatch_error_re _ _ _ Hd). reflexivity.
  - repeat (apply clears_bind; [solve [auto with clears] || idtac|intros ?]).
    + destruct (SAVE_RESPONSES B); auto with clears.
    + match goal with |- clears_page_on_http_failure (if ?c then _ else _) => destruct c end.
      * apply clears_bind; [apply clears_emit|intros _].
        apply clears_bind; [apply (clears_login B self Hself Hl)|intros _].
        apply clears_throw. reflexivity.
      * apply clears_bind; [auto with clears|intros _].
        apply (clears_run_prog self _ Hself (Ho cls)).
  - auto 6 with clears.
Qed.

Lemma clears_try_except : forall A (m : M A) (h : exn -> option (M A)),
  clears_page_on_http_failure m ->
  (forall e hm, h e = Some hm -> clears_page_on_http_failure hm) ->
  clears_page_on_http_failure (try_except m h).
Proof.
  intros A m h Hm Hh s s' e H He. unfold try_except in H.
  destruct (m s) as [s1 [e1|a]] eqn:E; [|discriminate H].
  destruct (h e1) as [hm|] eqn:Eh.
  - exact (Hh e1 hm Eh s1 s' e H He).
  - injection H as <- <-. exact (Hm s s1 e1 E He).
Qed.

Lemma clears_clear_then_throw : forall A e,
  clears_page_on_http_failure (modify (set_page_st None) ;; @throw A e).
Proof. intros A e s s' e' H _. injection H as <- _. reflexivity. Qed.

Lemma clears_retry_loop : forall n f,
  clears_page_on_http_failure f -> clears_page_on_http_failure (retry_loop n f).
Proof.
  induction n as [|n IH]; intros f Hf; [exact Hf|]. cbn [retry_loop].
  destruct n as [|m]; [exact Hf|].
  apply clears_try_except; [exact Hf|]. intros e hm Hh.
  destruct e; try discriminate Hh. injection Hh as <-. apply IH, Hf.
Qed.

Lemma clears_mech_open : forall B u, net_fails_as_transport B ->
  clears_page_on_http_failure (mech_open B u).
Proof.
  intros B u Hnet s s' e H He. unfold mech_open, bind, get in H.
  destruct (net B (cookies s) u) as [r|e1] eqn:En; [discriminate H|].
  injection H as <- <-. destruct (Hnet _ _ _ En) as [Ht| ->]; [|discriminate He].
  destruct e1; discriminate Ht || discriminate He.
Qed.

Lemma expand_error : forall gs tpl e, expand gs tpl = inl e -> e = ReError.
Proof.
  intros gs tpl. remember (List.length tpl) as n eqn:Hn.
  revert tpl Hn. induction n as [n IH] using lt_wf_ind. intros tpl Hn e H.
  destruct tpl as [|c tpl]; cbn [expand] in H; [discriminate H|].
  destruct (ascii_eqb c "\").
  - destruct tpl as [|d rest]; [injection H as <-; reflexivity|].
    assert (Hr : forall e', expand gs rest = inl e' -> e' = ReError)
      by (intros e' He'; apply (IH (List.length rest)) with (tpl := rest);
          [simpl in Hn; lia | reflexivity | exact He']).
    destruct (is_digit d && negb (ascii_eqb d "0")).
    + destruct (nth_error gs (code d - 49)) as [[g|]|]; try (injection H as <-; reflexivity).
      destruct (expand gs rest) eqn:E; [|discriminate H]. injection H as <-. apply Hr. reflexivity.
    + destruct (expand gs rest) eqn:E; [|discriminate H]. injection H as <-. apply Hr. reflexivity.
  - destruct (expand gs tpl) eqn:E; [|discriminate H]. injection H as <-.
    apply (IH (List.length tpl)) with (tpl := tpl); [simpl in Hn; lia | reflexivity | exact E].
Qed.

Lemma sub_loop_error : forall fuel r ng tpl s i start n0 e,
  sub_loop r ng tpl s i start n0 fuel = inl e -> e = ReError.
Proof.
  induction fuel as [|f IH]; intros r ng tpl s i start n0 e H; cbn [sub_loop] in H;
    [discriminate H|].
  destruct (List.length s <? start); [discriminate H|].
  destruct (Re.search_from r ng s start _) as [[[b e'] cs]|]; [|discriminate H].
  destruct (expand (Re.groups s cs) tpl) as [e1|rep] eqn:Ee.
  - injection H as <-. exact (expand_error _ _ _ Ee).
  - destruct (sub_loop r ng tpl s e' _ _ f) eqn:Es; [|discriminate H].
    injection H as <-. exact (IH _ _ _ _ _ _ _ _ Es).
Qed.

Lemma check_location_error : forall B h u e, check_location B h u = inl e -> e = ReError.
Proof.
  intros B h u e H. unfold check_location, re_sub in H.
  destruct (Re.compile _) as [[r ng]|]; [exact (sub_loop_error _ _ _ _ _ _ _ _ _ H)|].
  injection H as <-. reflexivity.
Qed.


Section ClearsPage.

Variable B : browser_cls.
Hypothesis Hnet : net_fails_as_transport B.
Hypothesis Hlogin : forallb no_openurl_action (login_prog B) = true.
Hypothesis Honl : forall cls, forallb no_openurl_action (on_loaded B cls) = true.

Lemma clears_navigation : forall self u nl,
  (forall c, is_openurl c = false -> clears_page_on_http_failure (self c)) ->
  clears_page_on_http_failure (location_body B self u nl)
  /\ clears_page_on_http_failure (submit B self u nl).
Proof.
  intros self u nl Hself.
  assert (Hb : clears_page_on_http_failure (r <- mech_open B u ;; change_location B self r nl)).
  { apply clears_bind; [apply (clears_mech_open B u Hnet)|intros r].
    apply (clears_change_location B self r nl Hself Hlogin Honl). }
  split; apply clears_try_except; try exact Hb; intros e hm Hh;
    destruct e; try discriminate Hh; injection Hh as <-;
    try apply clears_clear_then_throw; try (apply clears_throw; reflexivity);
    repeat first [ apply clears_ret | apply clears_emit | apply clears_get
                 | apply Hself; reflexivity | apply clears_bind
                 | match goal with
                   | |- forall _, _ => intro
                   | |- clears_page_on_http_failure (if ?c then _ else _) => destruct c
                   end ].
Qed.

Lemma clears_exec : forall f c, is_openurl c = false ->
  clears_page_on_http_failure (exec B f c).
Proof.
  induction f as [|f IH]; intros c Hc.
  - apply clears_throw. reflexivity.
  - destruct c as [u nl|u nl|u|]; cbn [exec]; try discriminate Hc.
    + unfold location. apply clears_bind; [apply clears_get|intros s].
      destruct (check_location B (request_host s) u) as [e|u'] eqn:Ec.
      * apply clears_throw. rewrite (check_location_error _ _ _ _ Ec). reflexivity.
      * apply clears_retry_loop. apply (proj1 (clears_navigation (exec B f) u' nl IH)).
    + apply (proj2 (clears_navigation (exec B f) u nl IH)).
    + unfold home. destruct (DOMAIN B); [apply IH; reflexivity|apply clears_ret].
Qed.

End ClearsPage.

(** C10 (amended): when the transport fails only as [mechanize] does and the
    hooks ([login] and every [on_loaded]) neither call [openurl] nor raise
    an HTTP failure themselves, a [location] or [submit] that ends in
    [BrowserHTTPError] or [BrowserHTTPNotFound] leaves no current page. *)
Theorem navigation_http_failure_clears_page :
  forall (B : browser_cls) (f : nat) (s s' : bstate) (u : text) (nl : bool) (e : exn),
  net_fails_as_transport B ->
  forallb no_openurl_action (login_prog B) = true ->
  (forall cls, forallb no_openurl_action (on_loaded B cls) = true) ->
  exec B f (CLocation u nl) s = (s', inl e) \/ exec B f (CSubmit u nl) s = (s', inl e) ->
  is_http_failure e = true ->
  cur_page s' = None.
Proof.
  intros B f s s' u nl e Hnet Hl Ho [H|H] He.
  - exact (clears_exec B Hnet Hl Ho f (CLocation u nl) eq_refl s s' e H He).
  - exact (clears_exec B Hnet Hl Ho f (CSubmit u nl) eq_refl s s' e H He).
Qed.

Lemma navigation_http_failure_clears_page_witness :
  let B := browser_x catch_all None (fun _ _ => true) [] (fun _ => []) down_net in
  cur_page on_b_state <> None
  /\ exec B 3 (CLocation test_url false) on_b_state
     = (fst (exec B 3 (CLocation test_url false) on_b_state), inl BrowserHTTPError)
  /\ cur_page (fst (exec B 3 (CLocation test_url false) on_b_state)) = None.
Proof.
  intros B. split; [discriminate|]. split; [vm_compute; reflexivity|].
  apply (navigation_http_failure_clears_page B 3 on_b_state
           (fst (exec B 3 (CLocation test_url false) on_b_state)) test_url false BrowserHTTPError).
  - intros c u e H. injection H as <-. left. reflexivity.
  - reflexivity.
  - intros cls. reflexivity.
  - left. vm_compute. reflexivity.
  - reflexivity.
Defined.

(** ** Nested logins *)

(** C4 (counterexample): a [login] that navigates with the default
    [no_login=False] to a page on which [is_logged] is false calls [login()]
    again while the first call is in progress; the nesting goes on until
    the recursion limit. *)
Lemma login_reentered :
  let s' := fst (exec (browser_x catch_all (Some (T "pw")) (fun _ _ => false)
                         [ALocation (T "http://x/login") false] (fun _ => []) echo_net)
                      8 (CLocation test_url false) empty_state) in
  nested_logins s' >= 2
  /\ snd (exec (browser_x catch_all (Some (T "pw")) (fun _ _ => false)
                  [ALocation (T "http://x/login") false] (fun _ => []) echo_net)
               8 (CLocation test_url false) empty_state) = inl RuntimeError.
Proof. vm_compute. split; [repeat constructor | reflexivity]. Qed.

Lemma keeps_ret : forall A (a : A), keeps_logins (ret a).
Proof. intros A a s s' r H. injection H as <- <-. repeat split. discriminate. Qed.

Lemma keeps_throw : forall A e, e <> BrowserStateError -> keeps_logins (@throw A e).
Proof. intros A e He s s' r H. injection H as <- <-. repeat split. congruence. Qed.

Lemma keeps_get : keeps_logins get.
Proof. intros s s' r H. injection H as <- <-. repeat split. discriminate. Qed.

Lemma keeps_modify : forall f,
  (forall s, login_depth (f s) = login_depth s /\ nested_logins (f s) = nested_logins s) ->
  keeps_logins (modify f).
Proof.
  intros f Hf s s' r H. injection H as <- <-. destruct (Hf s) as [H1 H2].
  repeat split; [exact H1|exact H2|discriminate].
Qed.

Lemma keeps_bind : forall A C (m : M A) (k : A -> M C),
  keeps_logins m -> (forall a, keeps_logins (k a)) -> keeps_logins (bind m k).
Proof.
  intros A C m k Hm Hk s s' r H. unfold bind in H.
  destruct (m s) as [s1 [e1|a]] eqn:E.
  - injection H as <- <-. destruct (Hm s s1 (inl e1) E) as (H1 & H2 & H3).
    repeat split; [exact H1|exact H2|]. intros Heq. injection Heq as ->. apply H3. reflexivity.
  - destruct (Hm s s1 (inr a) E) as (H1 & H2 & _).
    destruct (Hk a s1 s' r H) as (H4 & H5 & H6). repeat split; [congruence|congruence|exact H6].
Qed.

Lemma keeps_try_except : forall A (m : M A) (h : exn -> option (M A)),
  keeps_logins m ->
  (forall e hm, e <> BrowserStateError -> h e = Some hm -> keeps_logins hm) ->
  keeps_logins (try_except m h).
Proof.
  intros A m h Hm Hh s s' r H. unfold try_except in H.
  destruct (m s) as [s1 [e1|a]] eqn:E; destruct (Hm s s1 _ E) as (H1 & H2 & H3).
  - destruct (h e1) as [hm|] eqn:Eh.
    + assert (Hne : e1 <> BrowserStateError) by (intros ->; apply H3; reflexivity).
      destruct (Hh e1 hm Hne Eh s1 s' r H) as (H4 & H5 & H6).
      repeat split; [congruence|congruence|exact H6].
    + injection H as <- <-. repeat split; assumption.
  - injection H as <- <-. repeat split; assumption.
Qed.

Lemma keeps_emit : forall ev, keeps_logins (emit ev).
Proof. intros ev. apply keeps_modify. intros s. split; reflexivity. Qed.

Lemma keeps_set_page : forall p, keeps_logins (modify (set_page_st p)).
Proof. intros p. apply keeps_modify. intros s. split; reflexivity. Qed.

Create HintDb keeps.
#[local] Hint Resolve keeps_ret keeps_get keeps_bind keeps_emit keeps_set_page : keeps.

Lemma keeps_mech_open : forall B u, net_transport_only B ->
  keeps_logins (mech_open B u) /\ keeps_logins (mech_open_novisit B u).
Proof.
  intros B u Hnet. split; unfold mech_open, mech_open_novisit;
    apply keeps_bind; try apply keeps_get; intros s;
    destruct (net B (cookies s) u) as [r|e] eqn:En.
  1, 3: apply keeps_bind; [apply keeps_modify; intros s0; split; reflexivity|intros _; apply keeps_ret].
  all: apply keeps_throw; intros ->; specialize (Hnet _ _ _ En); discriminate Hnet.
Qed.

Lemma keeps_run_prog : forall (self : call -> M unit) (p : prog),
  (forall c, is_no_login_call c = true -> keeps_logins (self c)) ->
  forallb no_login_action p = true ->
  keeps_logins (run_prog self p).
Proof.
  intros self p Hself. induction p as [|a p IH]; intros Hp; cbn [run_prog fold_right].
  - apply keeps_ret.
  - cbn [forallb] in Hp. apply andb_prop in Hp as [Ha Hp].
    apply keeps_bind; [|intros _; exact (IH Hp)].
    destruct a; cbn [run_action]; cbn [no_login_action] in Ha;
      try (apply Hself; exact Ha); try discriminate Ha.
    apply keeps_throw. intros ->. discriminate Ha.
Qed.

Lemma keeps_retry_loop : forall n f, keeps_logins f -> keeps_logins (retry_loop n f).
Proof.
  induction n as [|n IH]; intros f Hf; [exact Hf|]. cbn [retry_loop].
  destruct n as [|m]; [exact Hf|].
  apply keeps_try_except; [exact Hf|]. intros e hm _ Hh.
  destruct e; try discriminate Hh. injection Hh as <-. apply IH, Hf.
Qed.

Lemma keeps_clear_then_throw : forall A e, e <> BrowserStateError ->
  keeps_logins (modify (set_page_st None) ;; @throw A e).
Proof.
  intros A e He. apply keeps_bind; [apply keeps_modify; intros s; split; reflexivity|intros _].
  apply keeps_throw, He.
Qed.

Lemma get_exception_not_state : forall e, get_exception e <> BrowserStateError.
Proof.
  intros e H. unfold get_exception in H. destruct e; try discriminate H.
  repeat match type of H with context [match ?x with _ => _ end] => destruct x end;
    discriminate H.
Qed.

(** Goals [e <> BrowserStateError] for an [e] computed by a [match]. *)
Ltac not_state_error :=
  let H := fresh in
  intros H; repeat match type of H with context [match ?x with _ => _ end] => destruct x end;
  discriminate H.

Section NoNestedLogin.

Variable B : browser_cls.
Hypothesis Hnet : net_transport_only B.
Hypothesis Hlogin : forallb no_login_action (login_prog B) = true.
Hypothesis Honl : forall cls, forallb no_login_action (on_loaded B cls) = true.

Lemma keeps_change_location_no_login : forall self r,
  (forall c, is_no_login_call c = true -> keeps_logins (self c)) ->
  keeps_logins (change_location B self r true).
Proof.
  intros self r Hself. unfold change_location.
  destruct (dispatch (PAGES B) (geturl r)) as [e|[[cls gs]|]] eqn:Hd.
  - apply keeps_throw. rewrite (dispatch_error_re _ _ _ Hd). discriminate.
  - apply keeps_bind; [apply keeps_emit|intros _].
    apply keeps_bind; [destruct (SAVE_RESPONSES B); auto with keeps|intros _].
    apply keeps_bind; [apply keeps_modify; intros s; split; reflexivity|intros _].
    apply keeps_bind; [apply keeps_get|intros s]. cbn [negb andb].
    apply keeps_bind; [apply keeps_emit|intros _].
    apply (keeps_run_prog self _ Hself (Honl cls)).
  - auto 6 with keeps.
Qed.

Lemma keeps_navigation_no_login : forall self u,
  (forall c, is_no_login_call c = true -> keeps_logins (self c)) ->
  keeps_logins (location_body B self u true) /\ keeps_logins (submit B self u true).
Proof.
  intros self u Hself.
  assert (Hb : keeps_logins (r <- mech_open B u ;; change_location B self r true)).
  { apply keeps_bind; [apply (proj1 (keeps_mech_open B u Hnet))|intros r].
    apply (keeps_change_location_no_login self r Hself). }
  split; apply keeps_try_except; try exact Hb; intros e hm Hne Hh;
    destruct e; try discriminate Hh; injection Hh as <-;
    try (exfalso; apply Hne; reflexivity);
    try (apply keeps_bind; [apply keeps_set_page|intros _]);
    try (apply keeps_throw; intros Heq;
         repeat match type of Heq with context [match ?x with _ => _ end] => destruct x end;
         discriminate Heq).
  apply keeps_bind; [apply keeps_get|intros s].
  destruct (match cur_page s with Some p => _ | None => _ end).
  - apply keeps_bind; [apply keeps_emit|intros _]. apply Hself. reflexivity.
  - apply keeps_ret.
Qed.

Lemma keeps_openurl_body : forall self u, keeps_logins (openurl_body B self u).
Proof.
  intros self u s s' r H.
  unfold openurl_body, try_except, mech_open_novisit, bind, get, modify, ret in H.
  destruct (net B (cookies s) u) as [resp|e] eqn:En; cbv beta iota in H.
  - injection H as <- <-.
    repeat split. discriminate.
  - pose proof (Hnet _ _ _ En) as Ht.
    destruct e; try discriminate Ht; unfold throw in H; cbv beta iota in H;
      injection H as <- <-; repeat split; intros Heq; injection Heq as Heq;
      repeat match type of Heq with context [match ?x with _ => _ end] => destruct x end;
      discriminate Heq.
Qed.

Lemma keeps_exec_no_login : forall f c, is_no_login_call c = true -> keeps_logins (exec B f c).
Proof.
  induction f as [|f IH]; intros c Hc.
  - apply keeps_throw. discriminate.
  - destruct c as [u nl|u nl|u|]; cbn [exec]; cbn [is_no_login_call] in Hc;
      try discriminate Hc; try subst nl.
    + unfold location. apply keeps_bind; [apply keeps_get|intros s].
      destruct (check_location B (request_host s) u) as [e|u'] eqn:Ec.
      * apply keeps_throw. rewrite (check_location_error _ _ _ _ Ec). discriminate.
      * apply keeps_retry_loop. apply (proj1 (keeps_navigation_no_login (exec B f) u' IH)).
    + apply (proj2 (keeps_navigation_no_login (exec B f) u IH)).
    + unfold openurl. apply keeps_bind; [apply keeps_get|intros s].
      destruct (check_location B (request_host s) u) as [e|u'] eqn:Ec.
      * apply keeps_throw. rewrite (check_location_error _ _ _ _ Ec). discriminate.
      * apply keeps_retry_loop, keeps_openurl_body.
Qed.

Lemma nn_of_keeps : forall A (m : M A), keeps_logins m -> no_nested_login m.
Proof.
  intros A m Hm s s' r H0 H. destruct (Hm s s' r H) as (H1 & H2 & _). split; congruence.
Qed.

Lemma nn_bind : forall A C (m : M A) (k : A -> M C),
  no_nested_login m -> (forall a, no_nested_login (k a)) -> no_nested_login (bind m k).
Proof.
  intros A C m k Hm Hk s s' r H0 H. unfold bind in H.
  destruct (m s) as [s1 [e1|a]] eqn:E.
  - injection H as <- <-. exact (Hm s s1 _ H0 E).
  - destruct (Hm s s1 _ H0 E) as [H1 H2]. destruct (Hk a s1 s' r H1 H) as [H3 H4].
    split; congruence.
Qed.

Lemma nn_try_except : forall A (m : M A) (h : exn -> option (M A)),
  no_nested_login m -> (forall e hm, h e = Some hm -> no_nested_login hm) ->
  no_nested_login (try_except m h).
Proof.
  intros A m h Hm Hh s s' r H0 H. unfold try_except in H.
  destruct (m s) as [s1 [e1|a]] eqn:E; destruct (Hm s s1 _ H0 E) as [H1 H2].
  - destruct (h e1) as [hm|] eqn:Eh.
    + destruct (Hh e1 hm Eh s1 s' r H1 H) as [H3 H4]. split; congruence.
    + injection H as <- <-. split; assumption.
  - injection H as <- <-. split; assumption.
Qed.

Lemma nn_retry_loop : forall n f, no_nested_login f -> no_nested_login (retry_loop n f).
Proof.
  induction n as [|n IH]; intros f Hf; [exact Hf|]. cbn [retry_loop].
  destruct n as [|m]; [exact Hf|].
  apply nn_try_except; [exact Hf|]. intros e hm Hh.
  destruct e; try discriminate Hh. injection Hh as <-. apply IH, Hf.
Qed.

Lemma nn_login : forall self,
  (forall c, is_no_login_call c = true -> keeps_logins (self c)) ->
  no_nested_login (login B self).
Proof.
  intros self Hself s s' r H0 H. unfold login, bind, modify, try_finally in H.
  destruct (run_prog self (login_prog B) (enter_login_st s)) as [s1 r1] eqn:E.
  destruct (keeps_run_prog self _ Hself Hlogin _ _ _ E) as (H1 & H2 & _).
  cbn [login_depth nested_logins enter_login_st] in H1, H2. rewrite H0 in H1, H2.
  cbn in H2. destruct r1; injection H as <- <-; cbn [login_depth nested_logins leave_login_st];
    rewrite H1; split; [reflexivity|exact H2|reflexivity|exact H2].
Qed.

Lemma nn_change_location : forall self r nl,
  (forall c, is_no_login_call c = true -> keeps_logins (self c)) ->
  no_nested_login (change_location B self r nl).
Proof.
  intros self r nl Hself. unfold change_location.
  destruct (dispatch (PAGES B) (geturl r)) as [e|[[cls gs]|]] eqn:Hd.
  - apply nn_of_keeps, keeps_throw. rewrite (dispatch_error_re _ _ _ Hd). discriminate.
  - apply nn_bind; [apply nn_of_keeps, keeps_emit|intros _].
    apply nn_bind; [apply nn_of_keeps; destruct (SAVE_RESPONSES B); auto with keeps|intros _].
    apply nn_bind; [apply nn_of_keeps, keeps_modify; intros s; split; reflexivity|intros _].
    apply nn_bind; [apply nn_of_keeps, keeps_get|intros s].
    destruct (_ && _).
    + apply nn_bind; [apply nn_of_keeps, keeps_emit|intros _].
      apply nn_bind; [apply (nn_login self Hself)|intros _].
      apply nn_of_keeps, keeps_throw. discriminate.
    + apply nn_bind; [apply nn_of_keeps, keeps_emit|intros _].
      apply nn_of_keeps, (keeps_run_prog self _ Hself (Honl cls)).
  - apply nn_of_keeps. auto 6 with keeps.
Qed.

(** Splits a [no_nested_login] goal along the binds, with [IH] for the
    recursive calls. *)
Ltac nn_steps IH :=
  repeat first [ apply IH
               | apply nn_of_keeps; solve [auto with keeps]
               | apply nn_of_keeps; apply keeps_throw; not_state_error
               | apply nn_bind
               | match goal with
                 | |- forall _, _ => intro
                 | |- no_nested_login (if ?c then _ else _) => destruct c
                 end ].

Lemma nn_exec : forall f c, no_nested_login (exec B f c).
Proof.
  induction f as [|f IH]; intros c.
  - apply nn_of_keeps, keeps_throw. discriminate.
  - assert (Hk : forall c, is_no_login_call c = true -> keeps_logins (exec B f c))
      by (intros c' Hc'; apply (keeps_exec_no_login f c' Hc')).
    assert (Hbody : forall u nl,
      no_nested_login (r <- mech_open B u ;; change_location B (exec B f) r nl)).
    { intros u nl. apply nn_bind; [apply nn_of_keeps, (proj1 (keeps_mech_open B u Hnet))|].
      intros r. apply (nn_change_location (exec B f) r nl Hk). }
    destruct c as [u nl|u nl|u|]; cbn [exec].
    + unfold location. apply nn_bind; [apply nn_of_keeps, keeps_get|intros s].
      destruct (check_location B (request_host s) u) as [e|u'] eqn:Ec.
      * apply nn_of_keeps, keeps_throw. rewrite (check_location_error _ _ _ _ Ec). discriminate.
      * apply nn_retry_loop. unfold location_body. apply nn_try_except; [apply Hbody|].
        intros e hm Hh. destruct e; try discriminate Hh; injection Hh as <-; nn_steps IH.
    + unfold submit. apply nn_try_except; [apply Hbody|].
      intros e hm Hh. destruct e; try discriminate Hh; injection Hh as <-; nn_steps IH.
    + apply nn_of_keeps, (keeps_exec_no_login (S f) (COpenurl u) eq_refl).
    + unfold home. destruct (DOMAIN B); [apply IH|apply nn_of_keeps, keeps_ret].
Qed.

End NoNestedLogin.

(** C4 (amended): the source keeps no re-entrancy counter; what stops a
    nested login is the [no_login=True] (for [submit], [nologin=True])
    flag of the navigations the hooks perform. When the login procedure
    and every [on_loaded] hook navigate only with that flag (or through
    [openurl]), never call [home] nor raise [BrowserStateError], and the
    transport fails only with transport errors, a call of the engine made
    with no login in progress never enters [login()] while a [login()] is
    already running. The ghost counter [nested_logins] counts such entries. *)
Theorem login_never_nested : forall B f c s s' r,
  net_transport_only B ->
  forallb no_login_action (login_prog B) = true ->
  (forall cls, forallb no_login_action (on_loaded B cls) = true) ->
  login_depth s = 0 ->
  exec B f c s = (s', r) ->
  nested_logins s' = nested_logins s.
Proof.
  intros B f c s s' r Hnet Hlogin Honl H0 H.
  exact (proj2 (nn_exec B Hnet Hlogin Honl f c s s' r H0 H)).
Qed.

Lemma login_never_nested_witness :
  existsb (event_eqb EvLogin)
    (trace (fst (exec (browser_x catch_all (Some (T "pw")) (fun _ _ => false)
                         [ALocation (T "http://x/login") true] (fun _ => []) echo_net)
                      8 (CLocation test_url false) empty_state))) = true
  /\ nested_logins (fst (exec (browser_x catch_all (Some (T "pw")) (fun _ _ => false)
                         [ALocation (T "http://x/login") true] (fun _ => []) echo_net)
                      8 (CLocation test_url false) empty_state)) = 0.
Proof.
  split.
  - vm_compute. reflexivity.
  - apply (login_never_nested
             (browser_x catch_all (Some (T "pw")) (fun _ _ => false)
                [ALocation (T "http://x/login") true] (fun _ => []) echo_net)
             8 (CLocation test_url false) empty_state _
             (snd (exec (browser_x catch_all (Some (T "pw")) (fun _ _ => false)
                           [ALocation (T "http://x/login") true] (fun _ => []) echo_net)
                        8 (CLocation test_url false) empty_state))).
    + intros c u e He. discriminate He.
    + reflexivity.
    + intros cls. reflexivity.
    + reflexivity.
    + destruct (exec _ _ _ _); reflexivity.
Defined.

(** ** Re-login *)

(** C3 (divergence): a login procedure that succeeds by posting the
    credentials with [openurl] leaves the logged-out page current. The
    [BrowserRetry] handler of [location] retries only when the current
    page's URL differs from [args[0]]; here it is the URL asked for, so
    [location] calls [login()] but makes no retry, and returns normally
    with the logged-out page (identity 0) as the current page, instead of
    reloading the page as its docstring says. *)
Lemma relogin_without_retry :
  let res := exec (browser_x catch_all (Some (T "pw")) (fun _ _ => false)
                     [AOpenurl (T "http://x/login")] (fun _ => []) echo_net)
                  8 (CLocation test_url false) empty_state in
  snd res = inr tt
  /\ cur_page (fst res) = Some (mk_page 0 "P"%string test_url [])
  /\ existsb (event_eqb EvLogin) (trace (fst res)) = true
  /\ existsb (event_eqb EvRetryNav) (trace (fst res)) = false.
Proof. vm_compute. repeat split. Qed.

(** ** The [on_loaded] hook *)

(** C8 (divergence): in the same run (a login by [openurl], a logged-out
    page at the URL asked for), the navigation returns normally, but
    [on_loaded] was never run for the page it leaves current (identity 0):
    that page was built, the re-login branch was taken instead of the
    hook, and the [BrowserRetry] handler made no retry to rebuild it. *)
Lemma relogin_page_not_loaded :
  let res := exec (browser_x catch_all (Some (T "pw")) (fun _ _ => false)
                     [AOpenurl (T "http://x/login")] (fun _ => []) echo_net)
                  8 (CLocation test_url false) empty_state in
  snd res = inr tt
  /\ option_map page_id (cur_page (fst res)) = Some 0
  /\ existsb (event_eqb (EvOnLoaded 0)) (trace (fst res)) = false.
Proof. vm_compute. repeat split. Qed.

(** ** Further properties of [browser.py] and [filters.py] *)

Lemma unquote_quote_plus_char : forall c rest,
  unquote (map plus_to_space (quote_plus_char c) ++ rest) = c :: unquote rest.
Proof. intros c rest. destruct c as [[] [] [] [] [] [] [] []]; reflexivity. Qed.

Lemma quote_plus_char_seps : forall c,
  no_sep "&" (quote_plus_char c) = true /\ no_sep ";" (quote_plus_char c) = true
  /\ no_sep "=" (quote_plus_char c) = true /\ quote_plus_char c <> [].
Proof. intros c. destruct c as [[] [] [] [] [] [] [] []]; repeat split; discriminate. Qed.

Lemma unquote_plus_quote_plus : forall s, unquote_plus (quote_plus s) = s.
Proof.
  unfold unquote_plus. induction s as [|c s IH]; [reflexivity|].
  cbn [quote_plus flat_map]. fold (quote_plus s). rewrite map_app.
  change (fun c0 : ascii => if ascii_eqb c0 "+" then " "%char else c0) with plus_to_space in *.
  rewrite unquote_quote_plus_char, IH. reflexivity.
Qed.

Lemma no_sep_app : forall sep x y, no_sep sep (x ++ y) = no_sep sep x && no_sep sep y.
Proof. intros. unfold no_sep. apply forallb_app. Qed.

Lemma no_sep_quote_plus : forall s,
  no_sep "&" (quote_plus s) = true /\ no_sep ";" (quote_plus s) = true /\ no_sep "=" (quote_plus s) = true.
Proof.
  induction s as [|c s IH]; [repeat split|].
  cbn [quote_plus flat_map]. fold (quote_plus s). rewrite !no_sep_app.
  destruct (quote_plus_char_seps c) as (H1 & H2 & H3 & _). destruct IH as (I1 & I2 & I3).
  rewrite H1, H2, H3, I1, I2, I3. repeat split.
Qed.

Lemma quote_plus_nil : forall s, quote_plus s = [] <-> s = [].
Proof.
  intros [|c s]; split; intro H; try reflexivity; try discriminate.
  cbn [quote_plus flat_map] in H. destruct (quote_plus_char_seps c) as (_ & _ & _ & Hn).
  destruct (quote_plus_char c); [contradiction|discriminate].
Qed.

Lemma split_on_none : forall sep x, no_sep sep x = true -> split_on sep x = [x].
Proof.
  induction x as [|c x IH]; intro H; [reflexivity|].
  cbn in H. apply andb_prop in H as [Hc Hx]. cbn [split_on].
  destruct (ascii_eqb c sep); [discriminate|]. rewrite (IH Hx). reflexivity.
Qed.

Lemma split_on_app : forall sep x y, no_sep sep x = true ->
  split_on sep (x ++ sep :: y) = x :: split_on sep y.
Proof.
  induction x as [|c x IH]; intros y H.
  - cbn. rewrite Ascii.eqb_refl. reflexivity.
  - cbn in H. apply andb_prop in H as [Hc Hx]. cbn [app split_on].
    destruct (ascii_eqb c sep); [discriminate|]. rewrite (IH y Hx). reflexivity.
Qed.

Lemma split_on_join : forall sep parts, parts <> [] -> forallb (no_sep sep) parts = true ->
  split_on sep (join [sep] parts) = parts.
Proof.
  induction parts as [|x parts IH]; intros Hne H; [congruence|].
  cbn in H. apply andb_prop in H as [Hx Hp]. destruct parts as [|y parts].
  - cbn. apply split_on_none, Hx.
  - change (join [sep] (x :: y :: parts)) with (x ++ [sep] ++ join [sep] (y :: parts)).
    cbn [app]. rewrite (split_on_app _ _ _ Hx), IH; [reflexivity|discriminate|exact Hp].
Qed.

Lemma split1_app : forall sep x y, no_sep sep x = true -> split1 sep (x ++ sep :: y) = Some (x, y).
Proof.
  induction x as [|c x IH]; intros y H.
  - cbn. rewrite Ascii.eqb_refl. reflexivity.
  - cbn in H. apply andb_prop in H as [Hc Hx]. cbn [app split1].
    destruct (ascii_eqb c sep); [discriminate|]. rewrite (IH y Hx). reflexivity.
Qed.

Lemma urlencode_split : forall q, q <> [] ->
  flat_map (split_on ";") (split_on "&" (urlencode q)) = map encode_pair q.
Proof.
  intros q Hq. unfold urlencode. fold encode_pair.
  rewrite split_on_join.
  - induction q as [|kv q IH]; [reflexivity|]. cbn [map flat_map].
    rewrite split_on_none.
    + destruct q; [reflexivity|]. cbn [app]. f_equal. apply IH. discriminate.
    + unfold encode_pair. rewrite !no_sep_app. destruct (no_sep_quote_plus (fst kv)) as (_ & -> & _).
      destruct (no_sep_quote_plus (snd kv)) as (_ & -> & _). reflexivity.
  - destruct q; [congruence|discriminate].
  - apply forallb_forall. intros x Hx. apply in_map_iff in Hx as [kv [<- _]].
    unfold encode_pair. rewrite !no_sep_app. destruct (no_sep_quote_plus (fst kv)) as (-> & _ & _).
    destruct (no_sep_quote_plus (snd kv)) as (-> & _ & _). reflexivity.
Qed.

(** [parse_qsl] of what [urlencode] writes gives the pairs back. *)
Lemma parse_qsl_urlencode : forall q,
  parse_qsl true (urlencode q) = q
  /\ parse_qsl false (urlencode q) = filter (fun kv => match snd kv with [] => false | _ => true end) q.
Proof.
  intros q. destruct q as [|kv0 q0] eqn:Eq; [split; reflexivity|].
  rewrite <- Eq. unfold parse_qsl. rewrite urlencode_split by congruence.
  clear kv0 q0 Eq.
  assert (Hp : forall kb kv, parse_qsl_field kb (encode_pair kv)
     = if negb match snd kv with [] => true | _ => false end || kb then [kv] else []).
  { intros kb [k v]. unfold encode_pair. cbn [fst snd]. unfold parse_qsl_field.
    assert (Hne : quote_plus k ++ T "=" ++ quote_plus v <> []) by (destruct (quote_plus k); discriminate).
    destruct (quote_plus k ++ T "=" ++ quote_plus v) as [|c0 r0] eqn:E; [congruence|].
    cbv iota. rewrite <- E. cbn [T list_ascii_of_string app].
    rewrite split1_app by apply no_sep_quote_plus.
    rewrite !unquote_plus_quote_plus.
    destruct v as [|c v]; [reflexivity|].
    assert (Hq : quote_plus (c :: v) <> []) by (intro H; pose proof (proj1 (quote_plus_nil (c :: v)) H) as H'; discriminate H').
    destruct (quote_plus (c :: v)); [contradiction|reflexivity]. }
  split.
  - induction q as [|kv q IH]; [reflexivity|]. cbn [map flat_map]. rewrite Hp, IH.
    rewrite orb_true_r. reflexivity.
  - induction q as [|kv q IH]; [reflexivity|]. cbn [map flat_map filter]. rewrite Hp, IH.
    rewrite orb_false_r. destruct kv as [k [|c v]]; reflexivity.
Qed.

Lemma set_cap_length : forall cs n v, List.length (Re.set_cap cs n v) = List.length cs.
Proof.
  induction cs as [|c cs IH]; intros n v; [destruct n; reflexivity|].
  destruct n as [|[|n]]; cbn; try reflexivity. rewrite IH. reflexivity.
Qed.

(** A match succeeds only through its continuation, with as many
    captures as it started with. *)
Lemma m_through_k : forall s f A r i cs (k : nat -> Re.caps -> option A) x,
  Re.m s f r i cs k = Some x ->
  exists j cs', List.length cs' = List.length cs /\ k j cs' = Some x.
Proof.
  intros s f A. induction f as [|f IH]; intros r i cs k x H; [discriminate H|].
  destruct r; cbn [Re.m] in H.
  - exists i, cs. split; [reflexivity|exact H].
  - destruct (nth_error s i); [|discriminate H]. destruct (ascii_eqb c a); [|discriminate H].
    exists (S i), cs. split; [reflexivity|exact H].
  - destruct (nth_error s i); [|discriminate H]. destruct (code a =? 10)%nat; [discriminate H|].
    exists (S i), cs. split; [reflexivity|exact H].
  - destruct (nth_error s i); [|discriminate H]. destruct (Re.class_matches neg items a); [|discriminate H].
    exists (S i), cs. split; [reflexivity|exact H].
  - destruct (i =? 0)%nat; [|discriminate H]. exists i, cs. split; [reflexivity|exact H].
  - match type of H with (if ?c then _ else _) = _ => destruct c end; [|discriminate H].
    exists i, cs. split; [reflexivity|exact H].
  - apply IH in H as (j & cs1 & L1 & H). apply IH in H as (j2 & cs2 & L2 & H).
    exists j2, cs2. split; [congruence|exact H].
  - destruct (Re.m s f r1 i cs k) eqn:E.
    + injection H as <-. apply (IH _ _ _ _ _ E).
    + apply (IH _ _ _ _ _ H).
  - destruct greedy.
    + destruct (Re.m s f r i cs _) eqn:E.
      * injection H as <-. apply IH in E as (j & cs1 & L1 & E).
        destruct (j =? i)%nat; [discriminate E|]. apply IH in E as (j2 & cs2 & L2 & E).
        exists j2, cs2. split; [congruence|exact E].
      * exists i, cs. split; [reflexivity|exact H].
    + destruct (k i cs) eqn:E.
      * injection H as <-. exists i, cs. split; [reflexivity|exact E].
      * apply IH in H as (j & cs1 & L1 & H).
        destruct (j =? i)%nat; [discriminate H|]. apply IH in H as (j2 & cs2 & L2 & H).
        exists j2, cs2. split; [congruence|exact H].
  - apply IH in H as (j & cs1 & L1 & H). exists j, (Re.set_cap cs1 n (i, j)).
    split; [rewrite set_cap_length; exact L1|exact H].
Qed.

Lemma compile_hash : Re.compile (T "(.*)#.*") = Some (hash_re, 1).
Proof. vm_compute. reflexivity. Qed.

Lemma m_char_seq : forall s f A c X i cs (k : nat -> Re.caps -> option A) x,
  Re.m s f (Re.RSeq (Re.RChar c) X) i cs k = Some x -> nth_error s i = Some c.
Proof.
  intros s f A c X i cs k x H. destruct f as [|[|f]]; [discriminate H|discriminate H|].
  cbn [Re.m] in H. destruct (nth_error s i) as [d|]; [|discriminate H].
  destruct (ascii_eqb c d) eqn:E; [|discriminate H].
  unfold ascii_eqb in E. apply Ascii.eqb_eq in E. subst. reflexivity.
Qed.

Lemma match_hash_none : forall s i, ~ In "#"%char s -> Re.match_at s hash_re 1 i = None.
Proof.
  intros s i Hn. unfold Re.match_at.
  destruct (Re.m s _ hash_re i _ _) as [x|] eqn:E; [exfalso|reflexivity].
  destruct (Re.fuel_for s hash_re) as [|f]; [discriminate E|].
  cbn [Re.m] in E. apply m_through_k in E as (j & cs' & _ & E).
  apply m_char_seq in E. apply Hn. eapply nth_error_In. exact E.
Qed.

Lemma search_hash_none : forall s i fuel, ~ In "#"%char s ->
  Re.search_from hash_re 1 s i fuel = None.
Proof.
  intros s i fuel Hn. revert i. induction fuel as [|f IH]; intros i; [reflexivity|].
  cbn [Re.search_from]. rewrite (match_hash_none s i Hn). apply IH.
Qed.

Lemma re_sub_hash_none : forall s, ~ In "#"%char s -> re_sub (T "(.*)#.*") (T "\1") s = inr s.
Proof.
  intros s Hn. unfold re_sub. rewrite compile_hash. cbn [sub_loop].
  replace (List.length s <? 0)%nat with false by (symmetry; apply Nat.ltb_ge; lia).
  rewrite search_hash_none by exact Hn. reflexivity.
Qed.

Lemma nr_ret : forall A (a : A), no_retry_escape (ret a).
Proof. intros A a s s' r H. injection H as _ <-. discriminate. Qed.

Lemma nr_throw : forall A e, e <> BrowserRetry -> no_retry_escape (@throw A e).
Proof. intros A e He s s' r H. injection H as _ <-. intros H'. injection H' as H'. exact (He H'). Qed.

Lemma nr_get : no_retry_escape get.
Proof. intros s s' r H. injection H as _ <-. discriminate. Qed.

Lemma nr_modify : forall f, no_retry_escape (modify f).
Proof. intros f s s' r H. injection H as _ <-. discriminate. Qed.

Lemma nr_emit : forall ev, no_retry_escape (emit ev).
Proof. intros ev. apply nr_modify. Qed.

Lemma nr_bind : forall A C (m : M A) (k : A -> M C),
  no_retry_escape m -> (forall a, no_retry_escape (k a)) -> no_retry_escape (bind m k).
Proof.
  intros A C m k Hm Hk s s' r H. unfold bind in H.
  destruct (m s) as [s1 [e|a]] eqn:E.
  - injection H as _ <-. intros H'. injection H' as ->. exact (Hm _ _ _ E eq_refl).
  - exact (Hk a _ _ _ H).
Qed.

(** A [try] whose handlers catch [BrowserRetry] and cannot end in it. *)
Lemma nr_try_except : forall A (m : M A) (h : exn -> option (M A)),
  h BrowserRetry <> None ->
  (forall e hm, h e = Some hm -> no_retry_escape hm) ->
  no_retry_escape (try_except m h).
Proof.
  intros A m h Hr Hh s s' r H. unfold try_except in H.
  destruct (m s) as [s1 [e|a]].
  - destruct (h e) as [hm|] eqn:E.
    + exact (Hh e hm E _ _ _ H).
    + injection H as _ <-. intros H'. injection H' as ->. exact (Hr E).
  - injection H as _ <-. discriminate.
Qed.

(** A [try] around code that cannot end in [BrowserRetry], with handlers
    that cannot either. *)
Lemma nr_try_except_body : forall A (m : M A) (h : exn -> option (M A)),
  no_retry_escape m ->
  (forall e hm, h e = Some hm -> no_retry_escape hm) ->
  no_retry_escape (try_except m h).
Proof.
  intros A m h Hm Hh s s' r H. unfold try_except in H.
  destruct (m s) as [s1 [e|a]] eqn:Em.
  - destruct (h e) as [hm|] eqn:E.
    + exact (Hh e hm E _ _ _ H).
    + injection H as _ <-. exact (Hm _ _ _ Em).
  - injection H as _ <-. discriminate.
Qed.

Lemma nr_retry_loop : forall n f, no_retry_escape f -> no_retry_escape (retry_loop n f).
Proof.
  intros n f Hf. induction n as [|[|n] IH]; [exact Hf|exact Hf|].
  cbn [retry_loop]. apply nr_try_except_body; [exact Hf|].
  intros e hm Hh. destruct e; try discriminate Hh. injection Hh as <-. exact IH.
Qed.

Lemma nr_mech_open : forall B u, net_no_retry B -> no_retry_escape (mech_open B u).
Proof.
  intros B u Hn s s' r H. unfold mech_open, bind, get in H.
  destruct (net B (cookies s) u) as [resp|e] eqn:E.
  - injection H as _ <-. discriminate.
  - injection H as _ <-. intros H'. injection H' as ->. exact (Hn _ _ E).
Qed.

Create HintDb noretry.
#[local] Hint Resolve nr_ret nr_get nr_modify nr_emit nr_bind : noretry.

Section NoRetry.

Variable B : browser_cls.
Hypothesis Hnet : net_no_retry B.

Ltac nr_steps H :=
  repeat first [ apply H
               | solve [auto with noretry]
               | apply nr_throw;
                 repeat match goal with |- context [match ?c with _ => _ end] => destruct c end;
                 discriminate
               | apply nr_mech_open; exact Hnet
               | apply nr_bind
               | match goal with
                 | |- forall _, _ => intro
                 | |- no_retry_escape (if ?c then _ else _) => destruct c
                 | |- no_retry_escape (match ?c with _ => _ end) => destruct c
                 end ].

Lemma nr_home : forall self, (forall c, no_retry_escape (self c)) -> no_retry_escape (home B self).
Proof. intros self Hs. unfold home. destruct (DOMAIN B); [apply Hs|apply nr_ret]. Qed.

Lemma nr_exec : forall f c, no_retry_escape (exec B f c).
Proof.
  induction f as [|f IH]; intros c.
  - apply nr_throw. discriminate.
  - destruct c as [u nl|u nl|u|]; cbn [exec].
    + unfold location. apply nr_bind; [apply nr_get|intros s].
      destruct (check_location B (request_host s) u) as [e|u'] eqn:Ec.
      * apply nr_throw. rewrite (check_location_error _ _ _ _ Ec). discriminate.
      * apply nr_retry_loop. unfold location_body. apply nr_try_except; [discriminate|].
        intros e hm Hh. destruct e; try discriminate Hh; injection Hh as <-; nr_steps IH.
    + unfold submit. apply nr_try_except; [discriminate|].
      intros e hm Hh. destruct e; try discriminate Hh; injection Hh as <-; nr_steps IH.
    + unfold openurl. apply nr_bind; [apply nr_get|intros s].
      destruct (check_location B (request_host s) u) as [e|u'] eqn:Ec.
      * apply nr_throw. rewrite (check_location_error _ _ _ _ Ec). discriminate.
      * apply nr_retry_loop. unfold openurl_body. apply nr_try_except; [discriminate|].
        intros e hm Hh. destruct e; try discriminate Hh; injection Hh as <-; nr_steps IH.
    + apply nr_home. exact IH.
Qed.

End NoRetry.

(** X2: when the transport never raises [BrowserRetry], no call of
    [location], [submit], [openurl], [home] or [follow_link] ends in
    [BrowserRetry], whatever the login procedure and the page hooks raise:
    the internal signal is always caught. *)
Theorem BrowserRetry_never_escapes : forall B f,
  net_no_retry B ->
  (forall c, no_retry_escape (exec B f c))
  /\ (forall u, no_retry_escape (follow_link B (exec B f) u)).
Proof.
  intros B f Hn. split; [intros c; apply (nr_exec B Hn)|intros u].
  unfold follow_link. apply nr_try_except; [discriminate|].
  intros e hm Hh. destruct e; try discriminate Hh; injection Hh as <-;
    try (apply nr_bind; [apply nr_home; intros c; apply (nr_exec B Hn)|intros _]);
    try (apply nr_bind; [apply nr_modify|intros _]); apply nr_throw;
    unfold get_exception; repeat match goal with |- context [match ?c with _ => _ end] => destruct c end;
    discriminate.
Qed.

Lemma remove_keeps_absent : forall c syms t, ~ In c t -> ~ In c (CleanText_remove t syms).
Proof.
  intros c. unfold CleanText_remove.
  induction syms as [|s syms IH]; intros t Ht; cbn [fold_left]; [exact Ht|].
  apply IH. intros Hin. apply filter_In in Hin as [Hin _]. exact (Ht Hin).
Qed.

Lemma remove_absent : forall syms t c, In c syms -> ~ In c (CleanText_remove t syms).
Proof.
  induction syms as [|s syms IH]; intros t c Hc; [destruct Hc|].
  destruct Hc as [Hs|Hc].
  - subst s. apply (remove_keeps_absent c syms). intros Hin. apply filter_In in Hin as [_ Hin].
    unfold ascii_eqb in Hin. rewrite Ascii.eqb_refl in Hin. discriminate Hin.
  - apply (IH _ _ Hc).
Qed.

(** X4: no byte of [symbols] is left in the output of [CleanText.filter]. *)
Theorem CleanText_removes_symbols : forall symbols v t,
  CleanText_filter symbols v = inr t -> forall c, In c symbols -> ~ In c t.
Proof.
  intros symbols v t H c Hc. unfold CleanText_filter in H.
  destruct (match v with VList l => _ | _ => _ end) as [e|v']; [discriminate H|].
  destruct (CleanText_clean v') as [e|t']; [discriminate H|].
  injection H as <-. apply remove_absent. exact Hc.
Qed.

Lemma CleanText_filter_clean_text : forall v t, CleanText_filter [] v = inr t ->
  exists x, t = clean_text x.
Proof.
  intros v t H. unfold CleanText_filter in H.
  destruct (match v with VList l => _ | _ => _ end) as [e|v']; [discriminate H|].
  destruct v'; cbn in H; try discriminate H; injection H as <-; eexists; reflexivity.
Qed.

Lemma strip_head : forall t c r, strip t = c :: r -> is_py_space c = false.
Proof.
  intros t c r H. unfold strip in H.
  destruct (dropwhile_head is_py_space t) as [H0 | (d & q & Hdq & Hd)]; unfold lstrip in H.
  - rewrite H0 in H. discriminate H.
  - rewrite Hdq in H. destruct (rstrip_cons d q Hd) as [y Hy]. rewrite Hy in H.
    injection H as <- _. exact Hd.
Qed.

Lemma rstrip_last : forall t r c, rstrip t = r ++ [c] -> is_py_space c = false.
Proof.
  intros t r c H. unfold rstrip in H.
  destruct (dropwhile_head is_py_space (rev t)) as [H0 | (d & q & Hdq & Hd)].
  - rewrite H0 in H. destruct r; discriminate H.
  - rewrite Hdq in H. cbn [rev] in H. apply app_inj_tail in H as [_ <-]. exact Hd.
Qed.

(** X5: the output of [CleanText.filter] with no symbols neither starts
    nor ends with a whitespace byte, and its bytes of the class
    [[\s\xa0\t]] are single spaces, never two in a row. *)
Theorem CleanText_output_shape : forall v t,
  CleanText_filter [] v = inr t ->
  collapsed false t
  /\ (forall c r, t = c :: r -> is_py_space c = false)
  /\ (forall r c, t = r ++ [c] -> is_py_space c = false).
Proof.
  intros v t H. apply CleanText_filter_clean_text in H as [x ->]. unfold clean_text.
  split; [|split].
  - apply collapsed_strip. apply collapse_aux_collapsed.
  - intros c r Hc. exact (strip_head _ _ _ Hc).
  - intros r c Hc. exact (rstrip_last _ _ _ Hc).
Qed.

Lemma search_caps_length : forall p t b e cs, Re.search p t = Some (b, e, cs) ->
  List.length cs = snd p.
Proof.
  intros [r ng] t. unfold Re.search. cbn [fst snd].
  generalize 0%nat. generalize (S (List.length t)).
  induction n as [|f IH]; intros i b e cs H; [discriminate H|].
  cbn [Re.search_from] in H. destruct (Re.match_at t r ng i) as [[j cs1]|] eqn:E.
  - injection H as _ _ <-. unfold Re.match_at in E.
    apply m_through_k in E as (j' & cs' & L & E). injection E as _ <-.
    rewrite L, repeat_length. reflexivity.
  - exact (IH _ _ _ _ H).
Qed.

(** X6: [Regexp] with a pattern without groups and no template raises
    [StopIteration] on every string the pattern is found in. *)
Theorem Regexp_no_group_StopIteration : forall r default t,
  Re.search (r, 0%nat) t <> None ->
  Regexp_filter (r, 0%nat) None default (VStr t) = inl StopIteration.
Proof.
  intros r default t H. unfold Regexp_filter.
  destruct (Re.search (r, 0%nat) t) as [[[b e] cs]|] eqn:E; [|congruence].
  apply search_caps_length in E. destruct cs; [reflexivity|discriminate E].
Qed.

Lemma make_time_valid : forall h mi se x, make_time h mi se = inr x ->
  x = VTime h mi se /\ (0 <= h <= 23)%Z /\ (0 <= mi <= 59)%Z /\ (0 <= se <= 59)%Z.
Proof.
  intros h mi se x H. unfold make_time in H.
  destruct (_ && _) eqn:Hc; [|discriminate H].
  injection H as <-. repeat rewrite andb_true_iff in Hc. repeat rewrite Z.leb_le in Hc.
  split; [reflexivity|]. lia.
Qed.

(** X7: what [Time.filter] returns is either a valid time (hour 0 to 23,
    minute and second 0 to 59) or the configured default. *)
Theorem Time_filter_valid : forall default v x,
  Time_filter default v = inr x ->
  (exists h mi se, x = VTime h mi se /\ (0 <= h <= 23)%Z /\ (0 <= mi <= 59)%Z /\ (0 <= se <= 59)%Z)
  \/ default = Some x.
Proof.
  intros default v x H. unfold Time_filter in H.
  destruct v; try discriminate H.
  destruct (Re.compile time_pattern) as [p|]; [|discriminate H].
  destruct (Re.search p t) as [[[b e] cs]|].
  - left. apply make_time_valid in H. do 3 eexists. exact H.
  - right. unfold default_or in H. destruct default; [congruence|discriminate H].
Qed.

(** X3: [buildurl] uses the pairs of [args], or else the items of
    [kwargs]; with none it returns [base], otherwise [base?query], and
    [parse_qsl] of the query gives the pairs back, in order (without
    [keep_blank_values], the pairs with an empty value are dropped). *)
Theorem buildurl_query_round_trip : forall base args kwargs,
  let pairs := match args with [] => PyDict.items kwargs | _ => args end in
  (pairs = [] -> buildurl base args kwargs = base)
  /\ (pairs <> [] ->
      buildurl base args kwargs = base ++ T "?" ++ urlencode pairs
      /\ parse_qsl true (urlencode pairs) = pairs
      /\ parse_qsl false (urlencode pairs)
         = filter (fun kv => match snd kv with [] => false | _ => true end) pairs).
Proof.
  intros base args kwargs pairs. unfold buildurl. fold pairs. split.
  - intros H. rewrite H. reflexivity.
  - intros H. split; [destruct pairs; [contradiction|reflexivity]|].
    apply parse_qsl_urlencode.
Qed.

(** X1: on a URL with no ['#'], the decorator [check_location] changes
    nothing when the URL does not start with ['/'] or when the request's
    host is [DOMAIN]; a URL starting with ['/'], with no request or one on
    another host, becomes the URL [absurl] builds from it (when neither
    [PROTOCOL] nor [DOMAIN] holds a ['#']). *)
Theorem check_location_no_fragment : forall B rh url,
  ~ In "#"%char url ->
  (starts_with_slash url = false -> check_location B rh url = inr url)
  /\ (forall d, DOMAIN B = Some d -> rh = Some d -> check_location B rh url = inr url)
  /\ (forall d, DOMAIN B = Some d -> rh <> Some d -> starts_with_slash url = true ->
      ~ In "#"%char (PROTOCOL B ++ d) ->
      exists u, absurl B (Some url) = Some u /\ check_location B rh url = inr u).
Proof.
  intros B rh url Hn. split; [|split].
  - intros Hs. unfold check_location. rewrite Hs. cbn [andb]. apply re_sub_hash_none. exact Hn.
  - intros d Hd Hr. unfold check_location. rewrite Hd, Hr.
    replace (text_eqb d d) with true by (symmetry; apply text_eqb_eq; reflexivity).
    rewrite andb_false_r. apply re_sub_hash_none. exact Hn.
  - intros d Hd Hr Hs Hpd. unfold absurl, check_location. rewrite Hd, Hs. eexists. split; [reflexivity|].
    replace (match rh with None => true | Some h => negb (text_eqb h d) end) with true.
    + cbn [andb]. apply re_sub_hash_none.
      rewrite in_app_iff in Hpd. intros H.
      apply in_app_or in H as [H|H]; [tauto|].
      apply in_app_or in H as [H|H]; [cbn in H; intuition discriminate|].
      apply in_app_or in H as [H|H]; tauto.
    + destruct rh as [h|]; [|reflexivity].
      destruct (text_eqb h d) eqn:E; [|reflexivity].
      apply text_eqb_eq in E. subst. contradiction.
Qed.

Lemma set_control_absent : forall C E (sv : C -> form_value -> E + C) (f : list (text * C)) name v,
  ~ In name (map fst f) -> set_control sv f name v = ControlNotFound.
Proof.
  intros C E sv. induction f as [|[n old] f IH]; intros name v H; [reflexivity|].
  cbn [set_control]. cbn [map fst In] in H.
  destruct (text_eqb n name) eqn:E0.
  - apply text_eqb_eq in E0. subst. tauto.
  - rewrite IH by tauto. reflexivity.
Qed.

Lemma existsb_name_absent : forall C name (f : list (text * C)),
  ~ In name (map fst f) -> existsb (fun c => text_eqb (fst c) name) f = false.
Proof.
  intros C name f H. apply not_true_iff_false. intros E. apply existsb_exists in E as [[n o] [Hin E]].
  apply text_eqb_eq in E. cbn [fst] in E. subst. apply H. apply (in_map fst _ _ Hin).
Qed.

Lemma set_control_unique : forall C E (sv : C -> form_value -> E + C) pre name old post v,
  ~ In name (map fst pre) -> ~ In name (map fst post) ->
  set_control sv (pre ++ (name, old) :: post) name v
  = match sv old v with inl e => SetFailed e | inr c => ControlSet (pre ++ (name, c) :: post) end.
Proof.
  intros C E sv. induction pre as [|[n o] pre IH]; intros name old post v Hpre Hpost.
  - cbn [app set_control]. replace (text_eqb name name) with true by (symmetry; apply text_eqb_eq; reflexivity).
    rewrite existsb_name_absent by exact Hpost. reflexivity.
  - cbn [app set_control]. cbn [map fst In] in Hpre.
    destruct (text_eqb n name) eqn:E0.
    + apply text_eqb_eq in E0. subst. tauto.
    + rewrite IH by tauto. destruct (sv old v); reflexivity.
Qed.

Lemma set_control_twice : forall C E (sv : C -> form_value -> E + C) pre name o1 mid o2 post v,
  ~ In name (map fst pre) ->
  set_control sv (pre ++ (name, o1) :: mid ++ (name, o2) :: post) name v = Ambiguous.
Proof.
  intros C E sv. induction pre as [|[n o] pre IH]; intros name o1 mid o2 post v Hpre.
  - cbn [app set_control]. replace (text_eqb name name) with true by (symmetry; apply text_eqb_eq; reflexivity).
    replace (existsb _ _) with true; [reflexivity|]. symmetry. apply existsb_exists.
    exists (name, o2). split; [apply in_or_app; right; left; reflexivity|].
    apply text_eqb_eq. reflexivity.
  - cbn [app set_control]. cbn [map fst In] in Hpre.
    destruct (text_eqb n name) eqn:E0.
    + apply text_eqb_eq in E0. subst. tauto.
    + rewrite IH by tauto. reflexivity.
Qed.

Lemma index_of_absent : forall a l, ~ In a l -> index_of a l = None.
Proof.
  induction l as [|y l IH]; intros H; [reflexivity|]. cbn [index_of].
  destruct (text_eqb y a) eqn:E.
  - apply text_eqb_eq in E. subst. exfalso. apply H. left. reflexivity.
  - rewrite IH; [reflexivity|]. intros Hin. apply H. right. exact Hin.
Qed.

Lemma index_of_first : forall a l i, nth_error l i = Some a -> ~ In a (firstn i l) ->
  index_of a l = Some i.
Proof.
  intros a l. induction l as [|y l IH]; intros i Hi Hf; [destruct i; discriminate Hi|].
  destruct i as [|i]; cbn [index_of].
  - injection Hi as ->. replace (text_eqb a a) with true by (symmetry; apply text_eqb_eq; reflexivity).
    reflexivity.
  - cbn [nth_error firstn In] in Hi, Hf. destruct (text_eqb y a) eqn:E.
    + apply text_eqb_eq in E. subst. tauto.
    + rewrite (IH i Hi) by tauto. reflexivity.
Qed.

(** X8: [set_field] leaves the form as it is when [args] has no [label]
    or maps it to [None], when no control has the field's name, or when
    no value is given and the value of [args] is missing from a non-empty
    list [is_list]. *)
Theorem set_field_keeps_form : forall C E (set_value : C -> form_value -> E + C)
    (frm : list (text * C)) args label field value is_list,
  let name := match field with Some (c :: f) => c :: f | _ => label end in
  (assoc label args = None
   \/ assoc label args = Some None
   \/ ~ In name (map fst frm)
   \/ (exists x l a, match value with Some (_ :: _) => False | _ => True end
                     /\ is_list = ILSeq (x :: l) /\ assoc label args = Some (Some a) /\ ~ In a (x :: l))) ->
  set_field set_value frm args label field value is_list = inr frm.
Proof.
  intros C E sv frm args label field value il name H. unfold set_field. fold name.
  destruct H as [H|[H|[H|(x & l & a & Hv & Hl & Ha & Hn)]]].
  - rewrite H. reflexivity.
  - rewrite H. reflexivity.
  - destruct (assoc label args) as [[a|]|]; [|reflexivity|reflexivity].
    destruct value as [[|c v]|]; [destruct il as [[]|[|x l]]| |destruct il as [[]|[|x l]]];
      try destruct (index_of a (x :: l)); try reflexivity;
      rewrite set_control_absent by exact H; reflexivity.
  - rewrite Ha, Hl, index_of_absent by exact Hn.
    destruct value as [[|c v]|]; [reflexivity|contradiction|reflexivity].
Qed.

(** X9: when exactly one control has the field's name (the [field]
    argument, or [label]), [set_field] runs the setter of that control, and
    of no other, on the value: [value] when it is non-empty, else
    [[args[label]]] when [is_list] is [True], [args[label]] when [is_list]
    is [False] or empty, and [[i]] for the first index [i] of
    [args[label]] in a list [is_list]. The form then changes at that
    control only, or the setter's error propagates. *)
Theorem set_field_sets_control : forall C E (set_value : C -> form_value -> E + C)
    pre name old post args label field value is_list a,
  name = match field with Some (c :: f) => c :: f | _ => label end ->
  assoc label args = Some (Some a) ->
  ~ In name (map fst pre) -> ~ In name (map fst post) ->
  let frm := pre ++ (name, old) :: post in
  let result v := match set_value old v with
                  | inl e => inl (SetterError e)
                  | inr c => inr (pre ++ (name, c) :: post)
                  end in
  (forall c v, value = Some (c :: v) ->
     set_field set_value frm args label field value is_list = result (FText (c :: v)))
  /\ (match value with Some (_ :: _) => False | _ => True end ->
     is_list = ILBool true ->
     set_field set_value frm args label field value is_list = result (FItems [IText a]))
  /\ (match value with Some (_ :: _) => False | _ => True end ->
     (is_list = ILBool false \/ is_list = ILSeq []) ->
     set_field set_value frm args label field value is_list = result (FText a))
  /\ (forall l i, match value with Some (_ :: _) => False | _ => True end ->
     is_list = ILSeq l -> nth_error l i = Some a -> ~ In a (firstn i l) ->
     set_field set_value frm args label field value is_list = result (FItems [IIndex i])).
Proof.
  intros C E sv pre name old post args label field value il a Hn Ha Hpre Hpost frm result.
  unfold set_field. cbv zeta. subst name. rewrite Ha. unfold frm, result.
  split; [|split; [|split]].
  - intros c v ->. rewrite set_control_unique by assumption. destruct (sv old _); reflexivity.
  - intros Hv ->. destruct value as [[|c v]|]; try contradiction;
      rewrite set_control_unique by assumption; destruct (sv old _); reflexivity.
  - intros Hv [-> | ->]; destruct value as [[|c v]|]; try contradiction;
      rewrite set_control_unique by assumption; destruct (sv old _); reflexivity.
  - intros l i Hv -> Hi Hf. destruct l as [|x l]; [destruct i; discriminate Hi|].
    rewrite (index_of_first a (x :: l) i Hi Hf).
    destruct value as [[|c v]|]; try contradiction;
      rewrite set_control_unique by assumption; destruct (sv old _); reflexivity.
Qed.

(** X10: when two controls have the field's name and there is a value to
    set, [set_field] lets mechanize's [AmbiguityError] through. *)
Theorem set_field_ambiguous : forall C E (set_value : C -> form_value -> E + C)
    pre name o1 mid o2 post args label field value is_list a,
  name = match field with Some (c :: f) => c :: f | _ => label end ->
  assoc label args = Some (Some a) ->
  ~ In name (map fst pre) ->
  match value with
  | Some (_ :: _) => True
  | _ => match is_list with ILSeq (x :: l) => In a (x :: l) | _ => True end
  end ->
  set_field set_value (pre ++ (name, o1) :: mid ++ (name, o2) :: post) args label field value is_list
  = inl AmbiguityError.
Proof.
  intros C E sv pre name o1 mid o2 post args label field value il a Hn Ha Hpre Hv.
  unfold set_field. cbv zeta. subst name. rewrite Ha.
  assert (Hi : forall x l, In a (x :: l) -> exists i, index_of a (x :: l) = Some i).
  { intros x l. generalize (x :: l). clear x l. induction l as [|y l IH]; intros Hin; [destruct Hin|].
    cbn [index_of]. destruct (text_eqb y a) eqn:Ey; [eexists; reflexivity|].
    destruct Hin as [->|Hin].
    - replace (text_eqb a a) with true in Ey by (symmetry; apply text_eqb_eq; reflexivity). discriminate Ey.
    - destruct (IH Hin) as [i ->]. eexists. reflexivity. }
  destruct value as [[|c v]|];
    [| rewrite set_control_twice by exact Hpre; reflexivity |];
    (destruct il as [[]|[|x l]];
     [ | | | destruct (Hi x l Hv) as [i ->]];
     rewrite set_control_twice by exact Hpre; reflexivity).
Qed.

Lemma relogin_body : forall B self u s r cls gs s2,
  net B (cookies s) u = NResp r ->
  dispatch (PAGES B) (geturl r) = inr (Some (cls, gs)) ->
  password B <> None ->
  is_logged B (cur_page (relogin_state B r cls gs s)) (cookies (relogin_state B r cls gs s)) = false ->
  login B self (emit_st EvRelogin (relogin_state B r cls gs s)) = (s2, inr tt) ->
  (r' <- mech_open B u ;; change_location B self r' false) s = (s2, inl BrowserRetry).
Proof.
  intros B self u s r cls gs s2 Hn Hd Hp Hl Hlog.
  unfold bind at 1, mech_open, bind at 1, get. rewrite Hn.
  unfold bind at 1, modify, ret. unfold change_location. rewrite Hd.
  unfold relogin_state, built_st in Hl, Hlog.
  destruct (password B) as [pw|]; [|congruence].
  destruct (SAVE_RESPONSES B); unfold bind, emit, modify, ret, get, throw;
    cbn [negb andb] in *; rewrite Hl; cbn [negb andb]; rewrite Hlog; reflexivity.
Qed.


Lemma flat_map_collapse_aux : forall (h : ascii -> text) t b,
  (forall c, is_clean_space c = true -> h c = []) ->
  flat_map h (collapse_aux b t) = flat_map h t.
Proof.
  intros h t. induction t as [|c t IH]; intros b Hh; [reflexivity|].
  cbn [collapse_aux]. destruct (is_clean_space c) eqn:Hc.
  - assert (Hsp : h " "%char = []) by (apply Hh; reflexivity).
    cbn [flat_map]. rewrite (Hh c Hc).
    destruct b; cbn [flat_map app]; rewrite ?Hsp; cbn [app]; apply IH; exact Hh.
  - cbn [flat_map]. rewrite IH by exact Hh. reflexivity.
Qed.

Lemma dropwhile_split : forall p (y : text), exists pre, y = pre ++ dropwhile p y /\ forallb p pre = true.
Proof.
  intros p. induction y as [|c y (pre & IH & Hp)]; [exists []; split; reflexivity|].
  cbn [dropwhile]. destruct (p c) eqn:Hc.
  - exists (c :: pre). split; [cbn; f_equal; exact IH|cbn; rewrite Hc, Hp; reflexivity].
  - exists []. split; reflexivity.
Qed.

Lemma flat_map_vanish : forall (h : ascii -> text) p (y : text),
  (forall c, p c = true -> h c = []) -> forallb p y = true -> flat_map h y = [].
Proof.
  intros h p y Hh. induction y as [|c y IH]; intros Hy; [reflexivity|].
  cbn [forallb] in Hy. apply andb_prop in Hy as [H1 H2]. cbn [flat_map]. rewrite (Hh c H1), IH by exact H2.
  reflexivity.
Qed.

Lemma flat_map_strip : forall (h : ascii -> text) x,
  (forall c, is_py_space c = true -> h c = []) -> flat_map h (strip x) = flat_map h x.
Proof.
  intros h x Hh. unfold strip, rstrip, lstrip.
  destruct (dropwhile_split is_py_space x) as (pre1 & E1 & P1).
  destruct (dropwhile_split is_py_space (rev (dropwhile is_py_space x))) as (pre2 & E2 & P2).
  set (z := dropwhile is_py_space x) in *.
  set (w := dropwhile is_py_space (rev z)) in *.
  transitivity (flat_map h z).
  - assert (Ez : z = rev w ++ rev pre2) by (rewrite <- rev_app_distr, <- E2, rev_involutive; reflexivity).
    rewrite Ez. rewrite flat_map_app.
    rewrite (flat_map_vanish h is_py_space (rev pre2) Hh); [symmetry; apply app_nil_r|].
    apply forallb_forall. intros c Hc. apply in_rev in Hc. exact (proj1 (forallb_forall _ _) P2 c Hc).
  - rewrite E1. rewrite flat_map_app, (flat_map_vanish h is_py_space pre1 Hh P1). reflexivity.
Qed.

Lemma flat_map_clean_text : forall (h : ascii -> text) t,
  (forall c, is_py_space c = true -> h c = []) -> flat_map h (clean_text t) = flat_map h t.
Proof.
  intros h t Hh. unfold clean_text, collapse. rewrite flat_map_strip by exact Hh.
  apply flat_map_collapse_aux. intros c Hc. apply Hh, clean_space_py_space, Hc.
Qed.

Lemma flat_map_filter_irrelevant : forall (h : ascii -> text) (keep : ascii -> bool) t,
  (forall c, keep c = false -> h c = []) -> flat_map h (filter keep t) = flat_map h t.
Proof.
  intros h keep t Hk. induction t as [|c t IH]; [reflexivity|].
  cbn [filter flat_map]. destruct (keep c) eqn:E; cbn [flat_map]; rewrite IH; [reflexivity|].
  rewrite (Hk c E). reflexivity.
Qed.

Lemma keep_decimal_chars_flat_map : forall x,
  keep_decimal_chars x = flat_map (fun c => if numeric_char c then [c] else []) x.
Proof.
  induction x as [|c x IH]; [reflexivity|]. unfold keep_decimal_chars in *. cbn [filter flat_map].
  rewrite IH. destruct (numeric_char c); reflexivity.
Qed.

Lemma keep_replaced : forall x,
  keep_decimal_chars (py_replace (py_replace x "." []) "," (T ".")) = flat_map decimal_char_image x.
Proof.
  induction x as [|c x IH]; [reflexivity|]. unfold py_replace, keep_decimal_chars in *.
  cbn [flat_map]. rewrite flat_map_app, filter_app, IH. f_equal.
  unfold decimal_char_image. destruct (ascii_eqb c ".") eqn:E1; [reflexivity|].
  cbn [flat_map app]. destruct (ascii_eqb c ",") eqn:E2; [reflexivity|].
  cbn [app filter]. destruct (numeric_char c); reflexivity.
Qed.

Lemma py_space_not_decimal : forall c, is_py_space c = true ->
  numeric_char c = false /\ ascii_eqb c "," = false /\ ascii_eqb c "." = false.
Proof.
  intros c. destruct c as [[] [] [] [] [] [] [] []]; vm_compute; intros H;
    try discriminate H; repeat split.
Qed.

Lemma filter_filter_idem : forall (f : ascii -> bool) (t : text), filter f (filter f t) = filter f t.
Proof.
  intros f t. induction t as [|c t IH]; [reflexivity|]. cbn [filter].
  destruct (f c) eqn:E; cbn [filter]; rewrite ?E, IH; reflexivity.
Qed.

(** X12: on a string, [CleanDecimal] depends only on the digits, the
    [-] and the [,] of the text when it replaces dots, and only on its
    digits, [-] and [.] when it does not. *)
Theorem CleanDecimal_numeric_chars_only : forall default t,
  CleanDecimal_filter true default (VStr t)
  = CleanDecimal_filter true default
      (VStr (filter (fun c => is_digit c || ascii_eqb c "-" || ascii_eqb c ",") t))
  /\ CleanDecimal_filter false default (VStr t)
     = CleanDecimal_filter false default (VStr (keep_decimal_chars t)).
Proof.
  intros default t. unfold CleanDecimal_filter, CleanText_filter, CleanText_clean, CleanText_remove.
  cbn [fold_left]. split.
  - rewrite !keep_replaced, !flat_map_clean_text.
    + rewrite flat_map_filter_irrelevant; [reflexivity|].
      intros c Hc. unfold decimal_char_image, numeric_char.
      destruct (ascii_eqb c ".") eqn:E; [reflexivity|].
      apply orb_false_elim in Hc as [Hc H3]. apply orb_false_elim in Hc as [H1 H2].
      rewrite H3, H1, H2. reflexivity.
    + intros c Hc. destruct (py_space_not_decimal c Hc) as (H1 & H2 & H3).
      unfold decimal_char_image. rewrite H1, H2, H3. reflexivity.
    + intros c Hc. destruct (py_space_not_decimal c Hc) as (H1 & H2 & H3).
      unfold decimal_char_image. rewrite H1, H2, H3. reflexivity.
  - assert (Hk : forall y, keep_decimal_chars (clean_text y) = keep_decimal_chars y).
    { intros y. rewrite !keep_decimal_chars_flat_map. apply flat_map_clean_text.
      intros c Hc. destruct (py_space_not_decimal c Hc) as (H1 & _). rewrite H1. reflexivity. }
    rewrite !Hk. unfold keep_decimal_chars. rewrite filter_filter_idem. reflexivity.
Qed.

(** X13: when the transport fails only as mechanize does and the hooks
    neither call [openurl] nor raise an HTTP failure themselves, a
    [follow_link] that ends in [BrowserHTTPError] or [BrowserHTTPNotFound]
    leaves no current page. *)
Theorem follow_link_http_failure_clears_page : forall B f u s s' e,
  net_fails_as_transport B ->
  forallb no_openurl_action (login_prog B) = true ->
  (forall cls, forallb no_openurl_action (on_loaded B cls) = true) ->
  follow_link B (exec B f) u s = (s', inl e) ->
  is_http_failure e = true ->
  cur_page s' = None.
Proof.
  intros B f u s s' e Hnet Hl Ho H He.
  assert (Hself : forall c, is_openurl c = false -> clears_page_on_http_failure (exec B f c))
    by (intros c Hc; exact (clears_exec B Hnet Hl Ho f c Hc)).
  refine (clears_try_except _ _ _ _ _ s s' e H He).
  - apply clears_bind; [apply (clears_mech_open B u Hnet)|intros r].
    apply (clears_change_location B (exec B f) r false Hself Hl Ho).
  - intros e1 hm Hh. destruct e1; try discriminate Hh; injection Hh as <-;
      try apply clears_clear_then_throw;
      (apply clears_bind; [unfold home; destruct (DOMAIN B); [apply Hself; reflexivity|apply clears_ret]|intros _];
       apply clears_throw; reflexivity).
Qed.

Lemma check_location_no_fragment_witness :
  let B := browser_x catch_all None (fun _ _ => true) [] (fun _ => []) echo_net in
  exists u, absurl B (Some (T "/a")) = Some u /\ check_location B None (T "/a") = inr u.
Proof.
  intros B.
  refine (proj2 (proj2 (check_location_no_fragment B None (T "/a") _)) (T "x") eq_refl _ eq_refl _).
  - cbn. intuition discriminate.
  - discriminate.
  - cbn. intuition discriminate.
Defined.

Lemma BrowserRetry_never_escapes_witness :
  let B := browser_x catch_all (Some (T "pw")) (fun _ _ => false)
             [AOpenurl (T "http://x/login")] (fun _ => []) echo_net in
  net_no_retry B /\ no_retry_escape (exec B 8 (CLocation test_url false)).
Proof.
  intros B. assert (Hn : net_no_retry B) by (intros c u H; discriminate H).
  split; [exact Hn|]. exact (proj1 (BrowserRetry_never_escapes B 8 Hn) _).
Defined.

Lemma buildurl_query_round_trip_witness :
  buildurl (T "/blah.php") [(T "a", T "&"); (T "b", T "=")] []
  = T "/blah.php" ++ T "?" ++ urlencode [(T "a", T "&"); (T "b", T "=")]
  /\ parse_qsl true (urlencode [(T "a", T "&"); (T "b", T "=")]) = [(T "a", T "&"); (T "b", T "=")]
  /\ parse_qsl false (urlencode [(T "a", T "&"); (T "b", T "=")])
     = filter (fun kv => match snd kv with [] => false | _ => true end)
              [(T "a", T "&"); (T "b", T "=")].
Proof.
  exact (proj2 (buildurl_query_round_trip (T "/blah.php") [(T "a", T "&"); (T "b", T "=")] [])
           ltac:(discriminate)).
Defined.

Lemma CleanText_removes_symbols_witness :
  CleanText_filter (T "$") (VStr (T " 12 $ ")) = inr (T "12 ") /\ ~ In "$"%char (T "12 ").
Proof.
  split; [vm_compute; reflexivity|].
  apply (CleanText_removes_symbols (T "$") (VStr (T " 12 $ "))); [vm_compute; reflexivity|left; reflexivity].
Defined.

Lemma CleanText_output_shape_witness :
  CleanText_filter [] (VList [VStr (T " a "); VStr (T "b  c")]) = inr (T "a b c")
  /\ collapsed false (T "a b c").
Proof.
  split; [vm_compute; reflexivity|].
  apply (proj1 (CleanText_output_shape (VList [VStr (T " a "); VStr (T "b  c")]) (T "a b c")
                  ltac:(vm_compute; reflexivity))).
Defined.

Lemma Regexp_no_group_StopIteration_witness :
  Re.compile (T "a") = Some (Re.RSeq (Re.RChar "a") Re.REmpty, 0)
  /\ Regexp_filter (Re.RSeq (Re.RChar "a") Re.REmpty, 0) None None (VStr (T "bab")) = inl StopIteration.
Proof.
  split; [vm_compute; reflexivity|].
  apply Regexp_no_group_StopIteration. vm_compute. discriminate.
Defined.

Lemma Time_filter_valid_witness :
  Time_filter None (VStr (T "12:30")) = inr (VTime 12 30 0)
  /\ ((exists h mi se, VTime 12 30 0 = VTime h mi se
        /\ (0 <= h <= 23)%Z /\ (0 <= mi <= 59)%Z /\ (0 <= se <= 59)%Z)
      \/ None = Some (VTime 12 30 0)).
Proof.
  split; [vm_compute; reflexivity|].
  apply (Time_filter_valid None (VStr (T "12:30"))). vm_compute. reflexivity.
Defined.

Lemma set_field_keeps_form_witness :
  set_field sample_set [(T "login", FText [])] [(T "user", Some (T "bob"))] (T "pass") None None (ILBool false)
  = inr [(T "login", FText [])].
Proof. apply set_field_keeps_form. left. reflexivity. Defined.

Lemma set_field_sets_control_witness :
  set_field sample_set ([(T "a", FText [])] ++ (T "login", FText []) :: [(T "b", FItems [])])
    [(T "login", Some (T "bob"))] (T "login") None (Some (T "x")) (ILBool false)
  = inr ([(T "a", FText [])] ++ (T "login", FText (T "x")) :: [(T "b", FItems [])])
  /\ set_field sample_set ([(T "a", FText [])] ++ (T "login", FText []) :: [(T "b", FItems [])])
    [(T "login", Some (T "bob"))] (T "login") None None (ILBool true)
  = inl (SetterError STypeError).
Proof.
  split.
  - refine (proj1 (set_field_sets_control _ _ sample_set [(T "a", FText [])] (T "login") (FText [])
              [(T "b", FItems [])] [(T "login", Some (T "bob"))] (T "login") None (Some (T "x"))
              (ILBool false) (T "bob") eq_refl eq_refl _ _) "x"%char [] eq_refl);
      cbn; intuition discriminate.
  - refine (proj1 (proj2 (set_field_sets_control _ _ sample_set [(T "a", FText [])] (T "login") (FText [])
              [(T "b", FItems [])] [(T "login", Some (T "bob"))] (T "login") None None
              (ILBool true) (T "bob") eq_refl eq_refl _ _)) I eq_refl);
      cbn; intuition discriminate.
Defined.

Lemma set_field_ambiguous_witness :
  set_field sample_set ([] ++ (T "login", FText []) :: [] ++ (T "login", FText []) :: [])
    [(T "login", Some (T "bob"))] (T "login") None (Some (T "x")) (ILBool false)
  = inl AmbiguityError.
Proof.
  apply (set_field_ambiguous _ _ sample_set [] (T "login") (FText []) [] (FText []) []
           [(T "login", Some (T "bob"))]
           (T "login") None (Some (T "x")) (ILBool false) (T "bob")); [reflexivity|reflexivity| |exact I].
  intros [].
Defined.


Lemma follow_link_http_failure_clears_page_witness :
  let B := browser_x catch_all None (fun _ _ => true) [] (fun _ => []) down_net in
  cur_page on_b_state <> None
  /\ follow_link B (exec B 3) test_url on_b_state
     = (fst (follow_link B (exec B 3) test_url on_b_state), inl BrowserHTTPError)
  /\ cur_page (fst (follow_link B (exec B 3) test_url on_b_state)) = None.
Proof.
  intros B. split; [discriminate|]. split; [vm_compute; reflexivity|].
  apply (follow_link_http_failure_clears_page B 3 test_url on_b_state
           (fst (follow_link B (exec B 3) test_url on_b_state)) BrowserHTTPError).
  - intros c u e H. injection H as <-. left. reflexivity.
  - reflexivity.
  - intros cls. reflexivity.
  - vm_compute. reflexivity.
  - reflexivity.
Defined.
